(** * Migoyugo (Flux / Kuyoku): the interactive driver [play_vs_ai.py]

    A shallow embedding of the driver that lets a human play the board game
    against a search-guided agent: the attribute-style dictionary [dotdict],
    the board renderer [display], the two move sources [ai_player] and
    [human_player], and the game loop [play_game].

    The game rules ([FluxGame]) and the search engine ([MCTS]) are imported by
    the driver; the game enters as a record of operations, the search engine
    is modelled from its written specification. *)

From Stdlib Require Import ZArith QArith List String Ascii Bool Lia.
From stdpp Require Import base option list gmap strings.

Local Open Scope Z_scope.

(** ** Boards

    A board is a numpy grid of integer cell codes, row by row. *)

Definition Board := list (list Z).

(** numpy's [board * player]: every cell multiplied by the scalar. *)
Definition board_mul (board : Board) (player : Z) : Board :=
  map (map (fun x => x * player)) board.

(** The sign-inverted board. *)
Definition negate_board (board : Board) : Board :=
  map (map Z.opp) board.

(** The driver's canonical form of a state: [board * player]. *)
Definition canonicalize (state : Board) (player : Z) : Board :=
  board_mul state player.

(** ** display *)

Module Display.

(** [x in [2, 3, 4, 5]]: Python list membership by equality. *)
Fixpoint py_in (x : Z) (l : list Z) : bool :=
  match l with
  | [] => false
  | y :: l' => (x =? y) || py_in x l'
  end.

Definition white_ion : string := "○".
Definition black_ion : string := "●".
Definition white_node : string := "◇".
Definition black_node : string := "◆".

Definition symbol (x : Z) : string :=
  if x =? 0 then "."
  else if x =? 1 then white_ion
  else if x =? -1 then black_ion
  else if py_in x [2; 3; 4; 5] then white_node
  else if py_in x [-2; -3; -4; -5] then black_node
  else "?".

(** [' '.join(parts)] *)
Fixpoint join (sep : string) (parts : list string) : string :=
  match parts with
  | [] => ""
  | [s] => s
  | s :: rest => s +:+ sep +:+ join sep rest
  end.

(** The lines [display board] prints: one per row, then the empty line of
    the bare [print()]. *)
Definition display (board : Board) : list string :=
  map (fun row => join " " (map symbol row)) board ++ [""].

End Display.

(** ** Python values the driver handles *)

(** The exceptions that can travel through the driver. *)
Inductive PyExn : Type :=
  | KeyError (key : string)
  | AttributeError (name : string)
  | ValueError
  | IndexError
  | EOFError
  | RecursionError
  | InvalidMoveError
  | EvaluatorError.

(** A computation that returns or raises. *)
Inductive Res (A : Type) : Type :=
  | Ok (a : A)
  | Raise (e : PyExn).
Arguments Ok {A} a.
Arguments Raise {A} e.

Definition bind {A B : Type} (c : Res A) (k : A -> Res B) : Res B :=
  match c with
  | Ok a => k a
  | Raise e => Raise e
  end.

Notation "'let!' x ':=' c 'in' k" := (bind c (fun x => k))
  (at level 10, x name, c at level 100, k at level 200).

(** Truth value of a number, as [if v] and [and] read it. *)
Definition truthy (v : Z) : bool := negb (v =? 0).

(** ** dotdict *)

Module Dotdict.

(** Names that ordinary attribute lookup finds on the type of a [dotdict]
    instance (CPython 3.11's [dir]): the methods of [dict], the special
    methods, and the three the class defines. Lookup reaches [__getattr__]
    only for a name that is not among them. The instance's own [__dict__]
    stays empty, since every assignment goes through [__setattr__]. *)
Definition dict_methods : list string :=
  ["clear"; "copy"; "fromkeys"; "get"; "items"; "keys"; "pop"; "popitem";
   "setdefault"; "update"; "values"].

Definition special_names : list string :=
  ["__class__"; "__class_getitem__"; "__contains__"; "__delattr__";
   "__delitem__"; "__dict__"; "__dir__"; "__doc__"; "__eq__"; "__format__";
   "__ge__"; "__getattr__"; "__getattribute__"; "__getitem__";
   "__getstate__"; "__gt__"; "__hash__"; "__init__"; "__init_subclass__";
   "__ior__"; "__iter__"; "__le__"; "__len__"; "__lt__"; "__module__";
   "__ne__"; "__new__"; "__or__"; "__reduce__"; "__reduce_ex__"; "__repr__";
   "__reversed__"; "__ror__"; "__setattr__"; "__setitem__"; "__sizeof__";
   "__str__"; "__subclasshook__"; "__weakref__"].

Definition on_type (name : string) : bool :=
  existsb (String.eqb name) (dict_methods ++ special_names).

Section Dotdict.
Context {V : Type}.

(** What an attribute access evaluates to: a stored item, or whatever the
    type provides under that name (a bound method, a slot). *)
Inductive Attr : Type :=
  | Item (v : V)
  | TypeAttr (name : string).

(** [self[name]] *)
Definition getitem (self : gmap string V) (name : string) : Res V :=
  match self !! name with
  | Some v => Ok v
  | None => Raise (KeyError name)
  end.

(** [def __getattr__(self, name): return self[name]] *)
Definition __getattr__ (self : gmap string V) (name : string) : Res V :=
  getitem self name.

(** [def __setattr__(self, name, value): self[name] = value] *)
Definition __setattr__ (self : gmap string V) (name : string) (value : V)
  : gmap string V :=
  <[name := value]> self.

(** [def __delattr__(self, name): del self[name]] *)
Definition __delattr__ (self : gmap string V) (name : string)
  : Res (gmap string V) :=
  match self !! name with
  | Some _ => Ok (delete name self)
  | None => Raise (KeyError name)
  end.

(** [d.name]: the type first, [__getattr__] as the fallback. *)
Definition getattr (d : gmap string V) (name : string) : Res Attr :=
  if on_type name then Ok (TypeAttr name)
  else let! v := __getattr__ d name in Ok (Item v).

(** [d.name = value]: [__setattr__] intercepts every assignment. *)
Definition setattr (d : gmap string V) (name : string) (value : V)
  : gmap string V :=
  __setattr__ d name value.

(** [hasattr(d, name)]: only an [AttributeError] is turned into [False]. *)
Definition hasattr (d : gmap string V) (name : string) : Res bool :=
  match getattr d name with
  | Ok _ => Ok true
  | Raise (AttributeError _) => Ok false
  | Raise e => Raise e
  end.
End Dotdict.

Arguments Attr V : clear implicits.

End Dotdict.

(** [args = dotdict({'numMCTSSims': 25, 'cpuct': 1.0})] *)
Definition args : gmap string Q :=
  <["numMCTSSims" := 25%Q]> (<["cpuct" := 1%Q]> ∅).

(** ** What the driver imports *)

(** The game object [g]: the operations of [FluxGame] the driver calls.
    [getValidMoves] returns the indicator vector over the action space,
    [getNextState] the new board and the player to move next (it may
    raise), [getGameEnded] a number that the driver compares with 0, 1
    and -1. The other three are calls into the same class and are taken
    here as returning: a run in which [getInitBoard], [getValidMoves] or
    [getGameEnded] raises is not among the runs described. *)
Record Game : Type := {
  getInitBoard : Board;
  getValidMoves : Board -> Z -> list Z;
  getNextState : Board -> Z -> Z -> Res (Board * Z);
  getGameEnded : Board -> Z -> Z
}.

(** The search object [mcts]: one instance, created once and then used by
    every call of [ai_player]; [getActionProb] may read and update it. *)
Record SearchEngine : Type := {
  Mcts : Type;
  getActionProb : Mcts -> Board -> Q -> Res (list Q) * Mcts
}.

(** ** numpy's argmax

    The index of the first element that no other element exceeds. The
    comparison is a parameter: the same scan serves probabilities, visit
    counts and selection scores. *)

(** [np.argmax] compares its entries as float64 numbers. A rational
    stands for the number of that value, so the scan below is numpy's
    on entries that float64 holds exactly ([float64_exact]): their
    comparison loses nothing. NaN is no rational and is left out. *)
Definition float64_exact (q : Q) : Prop :=
  exists m e : Z,
    Z.abs m < 2 ^ 53 /\ -1074 <= e <= 971 /\
    (q == inject_Z m * 2 ^ e)%Q.

Section Argmax.
Context {A : Type} (lt : A -> A -> bool).

(** One pass from the left: [besti] holds [best], the largest so far;
    someone later takes over only when strictly larger. *)
Fixpoint argmax_from (best : A) (besti i : nat) (l : list A) : nat :=
  match l with
  | [] => besti
  | x :: l' =>
      if lt best x then argmax_from x i (S i) l'
      else argmax_from best besti (S i) l'
  end.

Definition argmax (l : list A) : option nat :=
  match l with
  | [] => None
  | x :: l' => Some (argmax_from x 0%nat 1%nat l')
  end.
End Argmax.

Definition Qlt_bool (x y : Q) : bool := negb (Qle_bool y x).

(** [np.argmax] of a sequence of numbers; an empty one is a [ValueError]. *)
Definition np_argmax (a : list Q) : Res nat :=
  match argmax Qlt_bool a with
  | Some i => Ok i
  | None => Raise ValueError
  end.

(** ** The driver *)

(** What the driver writes to the terminal. *)
Inductive Output : Type :=
  | Print (line : string)
  | PrintValid (moves : list nat)
  | Prompt (text : string).

Module Driver.

Section Driver.
(** [g = FluxGame(8)] and [mcts = MCTS(g, nnet, args)] *)
Variable g : Game.
Variable engine : SearchEngine.
(** Python's [int] on a line of input; [None] stands for its
    [ValueError]. *)
Variable int : string -> option Z.

(** [def ai_player(board)] *)
Definition ai_player (mcts : Mcts engine) (board : Board)
  : Res Z * Mcts engine :=
  let '(pi, mcts') := getActionProb engine mcts board 0%Q in
  (let! pi := pi in let! a := np_argmax pi in Ok (Z.of_nat a), mcts').

(** [[i for i, v in enumerate(valid) if v]] *)
Fixpoint valid_indices (i : nat) (valid : list Z) : list nat :=
  match valid with
  | [] => []
  | v :: rest =>
      if truthy v then i :: valid_indices (S i) rest
      else valid_indices (S i) rest
  end.

(** What one pass through the body of [while True] does with a line:
    return the move, or print a complaint and go round again. An index
    outside [valid] and a line that is no integer both end in the
    [except] clause. *)
Inductive Attempt : Type :=
  | Accept (move : Z)
  | Reject (complaint : string).

Definition attempt (valid : list Z) (line : string) : Attempt :=
  match int line with
  | None => Reject "Please enter a valid integer between 0 and 63."
  | Some move =>
      if (0 <=? move) && (move <? 64) then
        match valid !! Z.to_nat move with
        | None => Reject "Please enter a valid integer between 0 and 63."
        | Some v =>
            if truthy v then Accept move
            else Reject "Invalid move. Try again."
        end
      else Reject "Invalid move. Try again."
  end.

(** The [while True] loop of [human_player] over the lines that are
    typed at the terminal. With no line left, [input] has written its
    prompt and waits for a line that does not come: [None]. (The
    terminal stays open. On an input that has been closed [input] raises
    [EOFError] instead, the [except] clause catches it, and prompt and
    complaint repeat without end; that run is not followed here.) *)
Fixpoint ask (valid : list Z) (inputs : list string)
  : list Output * option (Z * list string) :=
  match inputs with
  | [] => ([Prompt "Enter your move (0-63): "], None)
  | line :: rest =>
      match attempt valid line with
      | Accept move => ([Prompt "Enter your move (0-63): "], Some (move, rest))
      | Reject complaint =>
          let '(out, r) := ask valid rest in
          (Prompt "Enter your move (0-63): " :: Print complaint :: out, r)
      end
  end.

(** [def human_player(board)] *)
Definition human_player (board : Board) (inputs : list string)
  : list Output * option (Z * list string) :=
  let valid := getValidMoves g board 1 in
  let '(out, r) := ask valid inputs in
  (map Print (Display.display board)
     ++ PrintValid (valid_indices 0 valid) :: out, r).

(** The three-way announcement at the end of [play_game]. *)
Definition announce (result : Z) : string :=
  if result =? 1 then "White (You) win!"
  else if result =? -1 then "Black (AI) wins!"
  else "Draw!".

(** Lines 73-82: after a move, with [board] and [player] already
    replaced by what [getNextState] returned. [Some] is the [break]. *)
Definition game_over (board : Board) (player : Z) : option (list Output) :=
  if negb (getGameEnded g board (- player) =? 0) then
    let result := getGameEnded g board (- player) in
    Some (map Print (Display.display board) ++ [Print (announce result)])
  else None.

(** One iteration of the loop: the board and the player it began
    with, the lines not yet read and the search object as they were
    then, the value of [action] it came to (none when [human_player]
    never returns), and what it printed. *)
Record Iteration : Type := {
  it_board : Board;
  it_player : Z;
  it_inputs : list string;
  it_mcts : Mcts engine;
  it_move : option (Res Z);
  it_out : list Output
}.

(** How a run of the loop stands. *)
Inductive Status : Type :=
  | GameOver
  | Uncaught (e : PyExn)
  | AwaitingInput
  | Running.

(** Lines 67-71, the first half of an iteration: whose turn it is
    decides which move source is called and on which board. The result
    is what was printed, the value of [action], the lines left and the
    search object after the call. The move is missing when
    [human_player] never returns. *)
Definition take_turn (board : Board) (player : Z) (inputs : list string)
    (mcts : Mcts engine)
  : list Output * option (Res Z) * list string * Mcts engine :=
  if player =? 1 then
    let '(out, r) := human_player board inputs in
    match r with
    | Some (move, rest) => (out, Some (Ok move), rest, mcts)
    | None => (out, None, [], mcts)
    end
  else
    let '(a, mcts') := ai_player mcts (board_mul board player) in
    ([Print "AI is thinking..."], Some a, inputs, mcts').

(** The loop of [play_game], at most [fuel] iterations of it. *)
Fixpoint loop (fuel : nat) (board : Board) (player : Z)
    (inputs : list string) (mcts : Mcts engine)
  : list Iteration * Status :=
  match fuel with
  | O => ([], Running)
  | S fuel' =>
      let '(out, action, inputs', mcts') :=
        take_turn board player inputs mcts in
      let here out' :=
        {| it_board := board; it_player := player; it_inputs := inputs;
           it_mcts := mcts; it_move := action; it_out := out ++ out' |} in
      match action with
      | None => ([here []], AwaitingInput)
      | Some (Raise e) => ([here []], Uncaught e)
      | Some (Ok action) =>
          match getNextState g board player action with
          | Raise e => ([here []], Uncaught e)
          | Ok (board', player') =>
              match game_over board' player' with
              | Some final => ([here final], GameOver)
              | None =>
                  let '(its, st) := loop fuel' board' player' inputs' mcts' in
                  (here [] :: its, st)
              end
          end
      end
  end.

(** [def play_game()] *)
Definition play_game (fuel : nat) (inputs : list string) (mcts : Mcts engine)
  : list Iteration * Status :=
  loop fuel (getInitBoard g) 1 inputs mcts.
End Driver.

Arguments Iteration {engine}.
Arguments Build_Iteration {engine}.
Arguments it_board {engine}.
Arguments it_player {engine}.
Arguments it_inputs {engine}.
Arguments it_mcts {engine}.
Arguments it_move {engine}.
Arguments it_out {engine}.

End Driver.

(** ** The game model and the search engine

    [FluxGame] and [MCTS] are imported by the driver and are not part of
    it. They are modelled here from their written specification: the game
    model of section 4.1, the search engine of section 4.3. *)

Module Spec.

(** Modelled from the spec: the game rules behind [FluxGame]. The rules
    themselves are not specified; what a game supplies is its board size,
    its starting board, which actions are legal, what a move does, and
    the terminal result of section 3: [Some 1] a win for player +1,
    [Some (-1)] a win for player -1, [Some 0] a draw, [None] ongoing. *)
Record GameModel : Type := {
  boardSize : nat;
  initialState : Board;
  legalMoves : Board -> Z -> list bool;
  transition : Board -> Z -> nat -> Board * Z;
  outcome : Board -> option Z
}.

Section GameModel.
Variable gm : GameModel.

(** The fixed action space: one action per cell. *)
Definition actionSize : nat := (boardSize gm * boardSize gm)%nat.

Definition legal (state : Board) (player : Z) (action : nat) : bool :=
  match legalMoves gm state player !! action with
  | Some b => b
  | None => false
  end.

(** Modelled from the spec: [FluxGame.getNextState], the [applyMove] of
    section 4.1. It requires a legal action and fails with
    [InvalidMoveError] otherwise. *)
Definition applyMove (state : Board) (player : Z) (action : nat)
  : Res (Board * Z) :=
  if legal state player action then Ok (transition gm state player action)
  else Raise InvalidMoveError.

(** Modelled from the spec: [FluxGame.getGameEnded], the [result] of
    section 4.1. It is the terminal result of section 3 read relative to
    the player given. *)
Definition result (state : Board) (player : Z) : option Z :=
  match outcome gm state with
  | Some w => Some (w * player)
  | None => None
  end.

(** Modelled from the spec: the number [FluxGame.getGameEnded] hands to
    the driver. The driver's loop goes on while it is 0, so "ongoing"
    is the number 0. *)
Definition getGameEnded_number (state : Board) (player : Z) : Z :=
  match result state player with
  | Some r => r
  | None => 0
  end.
End GameModel.

(** Modelled from the spec: the configuration of section 6. The budget
    is an integer above 0. *)
Record Config : Type := {
  numSimulations : positive;
  cpuct : Q
}.


(** Modelled from the spec: a node of the search tree (section 3). For
    every action of the action space it holds the visit count, the
    accumulated value sum and the prior probability. *)
Record Node : Type := {
  visits : list nat;
  value_sum : list Q;
  prior : list Q
}.

Definition Qsum (l : list Q) : Q := fold_right Qplus 0%Q l.

Definition nat_sum (l : list nat) : nat := fold_right Nat.add 0%nat l.

Definition Q_of_nat (n : nat) : Q := inject_Z (Z.of_nat n).

(** The vector that is 1 at [best] and 0 elsewhere. *)
Definition one_hot (size best : nat) : list Q :=
  (fun a => if Nat.eqb a best then 1%Q else 0%Q) <$> seq 0 size.

(** Scores are ordered with minus infinity, [None], below every number. *)
Definition score_lt (x y : option Q) : bool :=
  match x, y with
  | None, Some _ => true
  | Some a, Some b => Qlt_bool a b
  | _, None => false
  end.

Section Search.
Variable gm : GameModel.
(** The evaluator of section 4.2: policy and value of a canonical state. *)
Variable evaluate : Board -> Res (list Q * Q).
Variable cfg : Config.
(** The square root and the power the formulas use. *)
Variable sqrt : Q -> Q.
Variable rpow : Q -> Q -> Q.

Definition count_of (node : Node) (a : nat) : nat :=
  default 0%nat (visits node !! a).

(** [Q(a)]: the mean backed-up value, 0 if unvisited. *)
Definition mean_value (node : Node) (a : nat) : Q :=
  if Nat.eqb (count_of node a) 0 then 0%Q
  else (default 0 (value_sum node !! a) / Q_of_nat (count_of node a))%Q.

(** Step 1, the upper-confidence score:
    [Q(a) + cpuct * P(a) * sqrt(sum_b N(b)) / (1 + N(a))],
    minus infinity for an illegal action. *)
Definition score (state : Board) (node : Node) (a : nat) : option Q :=
  if legal gm state 1 a then
    Some (mean_value node a
          + cpuct cfg * default 0 (prior node !! a)
            * sqrt (Q_of_nat (nat_sum (visits node)))
            / (1 + Q_of_nat (count_of node a)))%Q
  else None.

(** Step 1, selection: the action of maximal score, the lowest index
    among equals. An empty action space leaves nothing to apply. *)
Definition select (state : Board) (node : Node) : Res nat :=
  match argmax score_lt (score state node <$> seq 0 (actionSize gm)) with
  | Some a => Ok a
  | None => Raise InvalidMoveError
  end.

(** Step 3, the priors of a new node: the evaluator's policy masked to
    the legal actions and renormalised; uniform over the legal actions
    when the masked policy sums to 0. *)
Definition masked (state : Board) (policy : list Q) : list Q :=
  map (fun a => if legal gm state 1 a then default 0%Q (policy !! a) else 0%Q)
      (seq 0 (actionSize gm)).

Definition uniform_legal (state : Board) : list Q :=
  let n := List.length (filter (fun a => legal gm state 1 a = true) (seq 0 (actionSize gm))) in
  map (fun a => if legal gm state 1 a then (1 / Q_of_nat n)%Q else 0%Q)
      (seq 0 (actionSize gm)).

Definition priors (state : Board) (policy : list Q) : list Q :=
  let m := masked state policy in
  if Qeq_bool (Qsum m) 0 then uniform_legal state
  else map (fun p => (p / Qsum m)%Q) m.

Definition new_node (state : Board) (policy : list Q) : Node :=
  {| visits := replicate (actionSize gm) 0%nat;
     value_sum := replicate (actionSize gm) 0%Q;
     prior := priors state policy |}.

(** Step 4 at one node: [N(a)] goes up by 1 and the value is folded
    into the sum behind [Q(a)]. *)
Definition visit (a : nat) (v : Q) (node : Node) : Node :=
  {| visits := alter S a (visits node);
     value_sum := alter (fun w => (w + v)%Q) a (value_sum node);
     prior := prior node |}.

(** One simulation, steps 1 to 4, from a canonical state: the value of
    the state for the player to move there, and the tree with the
    statistics of the path updated. [fuel] bounds the depth of the
    descent. *)
Fixpoint search (fuel : nat) (tree : gmap Board Node) (state : Board)
  : Res (Q * gmap Board Node) :=
  match fuel with
  | O => Raise RecursionError
  | S fuel' =>
      match result gm state 1 with
      | Some r => Ok (inject_Z r, tree)
      | None =>
          match tree !! state with
          | None =>
              let! pv := evaluate state in
              Ok (pv.2, <[state := new_node state pv.1]> tree)
          | Some node =>
              let! a := select state node in
              let! next := applyMove gm state 1 a in
              let! below := search fuel' tree (canonicalize next.1 next.2) in
              let v := (- below.1)%Q in
              Ok (v, alter (visit a v) state below.2)
          end
      end
  end.

(** A descent passes through states of the tree and reads statistics
    that change only on the way back. Once it has made more steps than
    the tree has nodes it has come back to a state it already passed and
    goes round for ever; that is where the model stops it. *)
Definition simulate (tree : gmap Board Node) (root : Board)
  : Res (gmap Board Node) :=
  let! r := search (S (size tree)) tree root in Ok r.2.

(** Selection starts at the root (step 1), so the root has its node
    before the first simulation: a root where the game goes on and that
    the tree does not hold yet is evaluated and entered as in step 3.
    Every simulation then visits an action at the root, and after one
    simulation one root action has count 1 (section 8). *)
Definition prepare (tree : gmap Board Node) (root : Board)
  : Res (gmap Board Node) :=
  match result gm root 1 with
  | Some _ => Ok tree
  | None =>
      match tree !! root with
      | Some _ => Ok tree
      | None =>
          let! pv := evaluate root in
          Ok (<[root := new_node root pv.1]> tree)
      end
  end.

(** The simulations of one decision, one after the other, each on the
    tree the one before left. *)
Fixpoint simulations (n : nat) (tree : gmap Board Node) (root : Board)
  : Res (gmap Board Node) :=
  match n with
  | O => Ok tree
  | S n' => let! tree' := simulate tree root in simulations n' tree' root
  end.

(** [N(a)] at the root, over the whole action space. *)
Definition root_counts (tree : gmap Board Node) (root : Board) : list nat :=
  match tree !! root with
  | Some node => visits node
  | None => replicate (actionSize gm) 0%nat
  end.

(** A decision up to step 4 that starts from the tree [tree]: the root
    is canonicalized and entered, [n] simulations are run, and the visit
    counts they leave at the root are read off. *)
Definition decide (n : nat) (tree : gmap Board Node) (rootState : Board)
  : Res (list nat * gmap Board Node) :=
  let root := canonicalize rootState 1 in
  let! tree0 := prepare tree root in
  let! tree' := simulations n tree0 root in
  Ok (root_counts tree' root, tree').

(** A decision on a fresh tree with the configured budget. *)
Definition root_visits (rootState : Board)
  : Res (list nat * gmap Board Node) :=
  decide (Pos.to_nat (numSimulations cfg)) ∅ rootState.

(** Step 5: one-hot on the most visited action (the lowest index among
    equals) at temperature 0; otherwise the counts raised to
    [1/temperature] and renormalised, uniform over the legal actions
    when there is nothing to divide by. *)
Definition distribution (root : Board) (counts : list nat) (temperature : Q)
  : list Q :=
  if Qeq_bool temperature 0 then
    match argmax Nat.ltb counts with
    | Some best => one_hot (List.length counts) best
    | None => []
    end
  else
    let powered := map (fun n => rpow (Q_of_nat n) (1 / temperature)%Q) counts in
    if Qeq_bool (Qsum powered) 0 then uniform_legal root
    else map (fun x => (x / Qsum powered)%Q) powered.

(** Modelled from the spec: [MCTS.getActionProb]. The instance holds the
    tree of the last decision; a new decision discards it and builds its
    own. *)
Definition getActionProb (mcts : gmap Board Node) (rootState : Board)
    (temperature : Q) : Res (list Q) * gmap Board Node :=
  match root_visits rootState with
  | Ok (counts, tree) =>
      (Ok (distribution (canonicalize rootState 1) counts temperature), tree)
  | Raise e => (Raise e, ∅)
  end.

(** Modelled from the spec: the object [mcts = MCTS(g, nnet, args)]. *)
Definition engine : SearchEngine :=
  Build_SearchEngine (gmap Board Node) getActionProb.

(** Modelled from the spec: [MCTS.getActionProb] with the tree kept from
    one decision to the next, which sections 3 and 5 allow. The decision
    goes on from the tree the instance holds and leaves its own tree
    there. What a decision that fails leaves behind is not specified;
    here the instance stays as it was. *)
Definition getActionProb_reusing (mcts : gmap Board Node) (rootState : Board)
    (temperature : Q) : Res (list Q) * gmap Board Node :=
  match decide (Pos.to_nat (numSimulations cfg)) mcts rootState with
  | Ok (counts, tree) =>
      (Ok (distribution (canonicalize rootState 1) counts temperature), tree)
  | Raise e => (Raise e, mcts)
  end.

(** Modelled from the spec: the object [mcts] when it keeps its tree. *)
Definition reusing_engine : SearchEngine :=
  Build_SearchEngine (gmap Board Node) getActionProb_reusing.
End Search.

(** Modelled from the spec: the object [g] as the driver sees it. An
    action index below 0 names no cell. *)
Definition game_of (gm : GameModel) : Game :=
  {| getInitBoard := initialState gm;
     getValidMoves := fun board player =>
       map (fun b : bool => if b then 1 else 0) (legalMoves gm board player);
     getNextState := fun board player action =>
       if action <? 0 then Raise InvalidMoveError
       else applyMove gm board player (Z.to_nat action);
     getGameEnded := getGameEnded_number gm |}.

End Spec.

(** ** A small game to run the definitions on

    Cells are taken one at a time; whoever takes the far corner wins. *)

Module Corner.

Definition cells (n : nat) (board : Board) : list Z := concat board.

(** The board with cell [a] (row-major) set to [v]. *)
Definition place (n : nat) (board : Board) (a : nat) (v : Z) : Board :=
  alter (fun row => <[(a mod n)%nat := v]> row) (a / n)%nat board.

Definition model (n : nat) : Spec.GameModel :=
  {| Spec.boardSize := n;
     Spec.initialState := repeat (repeat 0 n) n;
     Spec.legalMoves := fun board _ => map (fun x => x =? 0) (cells n board);
     Spec.transition := fun board player a => (place n board a player, - player);
     Spec.outcome := fun board =>
       match last (cells n board) with
       | Some x => if x =? 0 then None else Some (Z.sgn x)
       | None => None
       end |}.

(** An evaluator with no opinion: equal priors, value 0. *)
Definition evaluate (n : nat) (_ : Board) : Res (list Q * Q) :=
  Ok (repeat (1 / Spec.Q_of_nat (n * n))%Q (n * n), 0%Q).

Definition config : Spec.Config :=
  {| Spec.numSimulations := 25%positive; Spec.cpuct := 1%Q |}.

(** A square root on the rationals, rounded down to an integer. *)
Definition sqrt (x : Q) : Q := inject_Z (Z.sqrt (Qnum x / Z.pos (Qden x))).

Definition rpow (x _ : Q) : Q := x.

Definition engine (n : nat) : SearchEngine :=
  Spec.engine (model n) (evaluate n) config sqrt rpow.

(** The same search with the tree kept in the instance. *)
Definition reusing_engine (n : nat) : SearchEngine :=
  Spec.reusing_engine (model n) (evaluate n) config sqrt rpow.

Definition g (n : nat) : Game := Spec.game_of (model n).

(** Python's [int] on decimal digits, enough to type moves with. *)
Fixpoint digits (acc : Z) (s : string) : option Z :=
  match s with
  | EmptyString => Some acc
  | String c rest =>
      let d := Z.of_nat (nat_of_ascii c) - 48 in
      if (0 <=? d) && (d <=? 9) then digits (10 * acc + d) rest else None
  end.

Definition int (s : string) : option Z :=
  match s with
  | EmptyString => None
  | _ => digits 0 s
  end.

(** A board of [n] rows of [n] cells. *)
Definition square (n : nat) (board : Board) : Prop :=
  List.length board = n /\ Forall (fun row => List.length row = n) board.

(** How many cells are still free. *)
Fixpoint zeros (l : list Z) : nat :=
  match l with
  | [] => 0%nat
  | x :: l' => if x =? 0 then S (zeros l') else zeros l'
  end.

Definition free_cells (n : nat) (board : Board) : nat := zeros (cells n board).

(** A late position on the 8x8 board, White to move: the first 62 cells
    are taken, 31 by each player, the last two are free. *)
Definition late_row : list Z := [1; -1; 1; -1; 1; -1; 1; -1].

Definition late_board : Board :=
  repeat late_row 7 ++ [[1; -1; 1; -1; 1; -1; 0; 0]].

(** The same game after White took cell 62 and Black the far corner. *)
Definition final_board : Board :=
  repeat late_row 7 ++ [[1; -1; 1; -1; 1; -1; 1; -1]].


End Corner.

(** ** Notions the statements below use *)

(** A line of input that names a legal move: an integer from 0 to 63
    whose entry in [valid] is truthy. *)
Definition valid_entry (int : string -> option Z) (valid : list Z)
    (line : string) : Prop :=
  exists move v,
    int line = Some move /\ 0 <= move < 64 /\
    valid !! Z.to_nat move = Some v /\ truthy v = true.

(** The two complaints [human_player] has. *)
Definition is_complaint (c : string) : Prop :=
  c = "Invalid move. Try again."%string \/
  c = "Please enter a valid integer between 0 and 63."%string.

(** What the terminal shows for a rejected line: the prompt it was typed
    at, then the complaint. *)
Definition reprompts (complaints : list string) : list Output :=
  flat_map (fun c => [Prompt "Enter your move (0-63): "; Print c]) complaints.

(** The lines of a run that are still to be read when [human_player]
    has returned [r]. *)
Definition unread (r : option (Z * list string)) : list string :=
  match r with
  | Some (_, rest) => rest
  | None => []
  end.

(** What [take_turn] comes to in the state an iteration began in. *)
Definition turn_of (g : Game) (engine : SearchEngine)
    (int : string -> option Z) (it : @Driver.Iteration engine)
  : list Output * option (Res Z) * list string * Mcts engine :=
  Driver.take_turn g engine int (Driver.it_board it) (Driver.it_player it)
    (Driver.it_inputs it) (Driver.it_mcts it).

(** The value of [action] after [human_player] has returned [r]. *)
Definition returned (r : option (Z * list string)) : option (Res Z) :=
  match r with
  | Some (move, _) => Some (Ok move)
  | None => None
  end.

(** Position [i] holds the first maximum of [l]: nothing in [l] exceeds
    the element there, and everything before it is strictly smaller. *)
Definition first_max {A : Type} (lt : A -> A -> bool) (l : list A) (i : nat)
    : Prop :=
  exists x,
    l !! i = Some x /\
    (forall j y, l !! j = Some y -> lt x y = false) /\
    (forall j y, (j < i)%nat -> l !! j = Some y -> lt y x = true).

(** The comparisons the scans are run with: strict, transitive, and with
    incomparability transitive too. *)
Record StrictWeak {A : Type} (lt : A -> A -> bool) : Prop := {
  lt_irrefl : forall x, lt x x = false;
  lt_trans : forall x y z, lt x y = true -> lt y z = true -> lt x z = true;
  lt_between : forall x y z, lt x z = true -> lt x y = true \/ lt y z = true
}.

(** A node of the tree is well formed for its state: its visit counts
    cover the action space, and only legal actions have been visited. *)
Definition node_ok (gm : Spec.GameModel) (state : Board) (node : Spec.Node)
    : Prop :=
  List.length (Spec.visits node) = Spec.actionSize gm /\
  forall a, (0 < Spec.count_of node a)%nat -> Spec.legal gm state 1 a = true.

Definition tree_ok (gm : Spec.GameModel) (tree : gmap Board Spec.Node) : Prop :=
  map_Forall (node_ok gm) tree.

(** [tree'] has every node of [tree], with visit counts at least as
    large. *)
Definition grows (tree tree' : gmap Board Spec.Node) : Prop :=
  forall state node,
    tree !! state = Some node ->
    exists node',
      tree' !! state = Some node' /\
      forall a, (Spec.count_of node a <= Spec.count_of node' a)%nat.

(** Some action has been visited at [state]. *)
Definition visited (tree : gmap Board Spec.Node) (state : Board) : Prop :=
  exists node a,
    tree !! state = Some node /\ (0 < Spec.count_of node a)%nat.

(** A game the search can always finish a decision on. Its states of
    interest, the [good] ones, are closed under legal moves; on them the
    evaluator answers, a state where the game goes on has a legal action,
    and every legal move from such a state lowers a measure of the
    canonical state. *)
Record Playable (gm : Spec.GameModel) (evaluate : Board -> Res (list Q * Q))
    (good : Board -> Prop) (measure : Board -> nat) : Prop := {
  evaluator_answers :
    forall state, good state -> exists pv, evaluate state = Ok pv;
  ongoing_has_move :
    forall state,
      good state ->
      Spec.result gm state 1 = None ->
      exists a, (a < Spec.actionSize gm)%nat /\ Spec.legal gm state 1 a = true;
  move_makes_progress :
    forall state a,
      good state ->
      Spec.result gm state 1 = None ->
      Spec.legal gm state 1 a = true ->
      let next := canonicalize (Spec.transition gm state 1 a).1
                               (Spec.transition gm state 1 a).2 in
      good next /\ (measure next < measure state)%nat
}.

(** What a cell shows as: the six cases of [symbol]. *)
Inductive CellClass : Type :=
  | Vacant
  | IonWhite
  | IonBlack
  | NodeWhite
  | NodeBlack
  | Other.

Definition cell_class (x : Z) : CellClass :=
  if x =? 0 then Vacant
  else if x =? 1 then IonWhite
  else if x =? -1 then IonBlack
  else if (2 <=? x) && (x <=? 5) then NodeWhite
  else if (-5 <=? x) && (x <=? -2) then NodeBlack
  else Other.

Definition class_symbol (c : CellClass) : string :=
  match c with
  | Vacant => "."
  | IonWhite => Display.white_ion
  | IonBlack => Display.black_ion
  | NodeWhite => Display.white_node
  | NodeBlack => Display.black_node
  | Other => "?"
  end.

(** The same kind of piece in the other colour. *)
Definition other_colour (c : CellClass) : CellClass :=
  match c with
  | IonWhite => IonBlack
  | IonBlack => IonWhite
  | NodeWhite => NodeBlack
  | NodeBlack => NodeWhite
  | c => c
  end.

(** The first lines of what [human_player] prints: the board, then the
    list of valid moves. *)
Definition preamble (g : Game) (board : Board) : list Output :=
  map Print (Display.display board)
    ++ [PrintValid (Driver.valid_indices 0 (getValidMoves g board 1))].

(** A search object that answers every call with the same vector. *)
Definition fixed_engine (pi : list Q) : SearchEngine :=
  {| Mcts := unit; getActionProb := fun _ _ _ => (Ok pi, tt) |}.

(** A game object that never reports an end: the 8x8 corner game with
    [getGameEnded] stuck at 0. *)
Definition endless : Game :=
  {| getInitBoard := getInitBoard (Corner.g 8);
     getValidMoves := getValidMoves (Corner.g 8);
     getNextState := getNextState (Corner.g 8);
     getGameEnded := fun _ _ => 0 |}.

(** * Properties *)

(** ** display *)

Lemma py_in_spec (x : Z) (l : list Z) : Display.py_in x l = true <-> x ∈ l.
Proof.
  induction l as [|y l IH]; simpl.
  - split; [discriminate | intros H; inversion H].
  - rewrite orb_true_iff, Z.eqb_eq, IH, elem_of_cons. tauto.
Qed.

(** C9. The symbol [display] prints for a cell follows the cell codes: 0 is
    a dot, +1 the white ion, -1 the black ion, 2..5 the white node, -2..-5
    the black node, and every other value a question mark. *)
Theorem symbol_follows_cell_codes :
  Display.symbol 0 = "." /\
  Display.symbol 1 = Display.white_ion /\
  Display.symbol (-1) = Display.black_ion /\
  (forall x, 2 <= x <= 5 -> Display.symbol x = Display.white_node) /\
  (forall x, -5 <= x <= -2 -> Display.symbol x = Display.black_node) /\
  (forall x, x < -5 \/ 5 < x -> Display.symbol x = "?").
Proof.
  repeat split; try reflexivity.
  - intros x Hx.
    assert (x = 2 \/ x = 3 \/ x = 4 \/ x = 5) as Hc by lia.
    destruct Hc as [-> | [-> | [-> | ->]]]; reflexivity.
  - intros x Hx.
    assert (x = -2 \/ x = -3 \/ x = -4 \/ x = -5) as Hc by lia.
    destruct Hc as [-> | [-> | [-> | ->]]]; reflexivity.
  - intros x Hx. unfold Display.symbol.
    destruct (x =? 0) eqn:E0; [lia|].
    destruct (x =? 1) eqn:E1; [lia|].
    destruct (x =? -1) eqn:E2; [lia|].
    destruct (Display.py_in x [2; 3; 4; 5]) eqn:E3.
    { apply py_in_spec in E3. rewrite !elem_of_cons, elem_of_nil in E3. lia. }
    destruct (Display.py_in x [-2; -3; -4; -5]) eqn:E4.
    { apply py_in_spec in E4. rewrite !elem_of_cons, elem_of_nil in E4. lia. }
    reflexivity.
Qed.

Lemma symbol_follows_cell_codes_witness :
  Display.symbol 4 = Display.white_node /\
  Display.symbol (-3) = Display.black_node /\
  Display.symbol 9 = "?".
Proof.
  destruct symbol_follows_cell_codes as (_ & _ & _ & Hw & Hb & Hq).
  split; [apply Hw; lia | split; [apply Hb; lia | apply Hq; lia]].
Defined.

(** ** Canonical boards *)

Lemma board_mul_1 (board : Board) : board_mul board 1 = board.
Proof.
  unfold board_mul.
  induction board as [|row board IH]; simpl; [reflexivity|].
  f_equal; [|exact IH].
  induction row as [|x row IHrow]; simpl; [reflexivity|].
  f_equal; [lia | exact IHrow].
Qed.

Lemma board_mul_opp (board : Board) : board_mul board (-1) = negate_board board.
Proof.
  unfold board_mul, negate_board.
  apply map_ext; intros row. apply map_ext; intros x. lia.
Qed.

(** C7. The driver's canonical form [state * player] leaves the state as it
    is for player +1, is the sign-inverted board for player -1, and
    canonicalizing once more for player +1 changes nothing. *)
Theorem canonicalize_laws (state : Board) (player : Z) :
  canonicalize state 1 = state /\
  canonicalize state (-1) = negate_board state /\
  canonicalize (canonicalize state player) 1 = canonicalize state player.
Proof.
  unfold canonicalize.
  split; [apply board_mul_1 | split; [apply board_mul_opp | apply board_mul_1]].
Qed.

(** ** dotdict *)

(** C10, as the class behaves: for a name the type does not provide,
    [d.k] is [d[k]] when [k] is a key and raises [KeyError] when it is not,
    and so does [hasattr]; [d.k = v] makes [d[k]] equal to [v] for every
    name. *)
Theorem dotdict_attribute_access (V : Type) (d : gmap string V) (k : string) :
  (forall v, d !! k = Some v -> Dotdict.on_type k = false ->
     Dotdict.getattr d k = Ok (Dotdict.Item v)) /\
  (forall v, Dotdict.getitem (Dotdict.setattr d k v) k = Ok v) /\
  (d !! k = None -> Dotdict.on_type k = false ->
     Dotdict.getattr d k = Raise (KeyError k) /\
     Dotdict.hasattr d k = Raise (KeyError k)).
Proof.
  unfold Dotdict.hasattr, Dotdict.getattr, Dotdict.setattr,
    Dotdict.__getattr__, Dotdict.__setattr__, Dotdict.getitem.
  split; [|split].
  - intros v Hk Ht. rewrite Ht, Hk. reflexivity.
  - intros v. rewrite lookup_insert_eq. reflexivity.
  - intros Hk Ht. rewrite Ht, Hk. split; reflexivity.
Qed.

Lemma dotdict_attribute_access_witness :
  Dotdict.getattr args "cpuct" = Ok (Dotdict.Item 1%Q) /\
  Dotdict.getitem (Dotdict.setattr args "cpuct" 2%Q) "cpuct" = Ok 2%Q /\
  Dotdict.hasattr (delete "cpuct" args) "cpuct" = Raise (KeyError "cpuct").
Proof.
  split; [|split].
  - apply (dotdict_attribute_access Q args "cpuct"); reflexivity.
  - apply (dotdict_attribute_access Q args "cpuct").
  - apply (dotdict_attribute_access Q (delete "cpuct" args) "cpuct"); reflexivity.
Defined.

(** C10 as stated fails for a key that is also a method of [dict]:
    [dotdict({'keys': 1}).keys] is the method, not the stored 1. *)
Lemma dotdict_keys_is_the_method :
  let d : gmap string Z := <["keys" := 1]> ∅ in
  d !! "keys" = Some 1 /\
  Dotdict.getattr d "keys" = Ok (Dotdict.TypeAttr "keys") /\
  Dotdict.getattr d "keys" <> Ok (Dotdict.Item 1).
Proof.
  split; [reflexivity | split; [reflexivity | discriminate]].
Qed.


(** ** human_player *)

Section HumanPlayer.
Variable g : Game.
Variable int : string -> option Z.

Lemma attempt_accept (valid : list Z) (line : string) (move : Z) :
  Driver.attempt int valid line = Driver.Accept move <->
  int line = Some move /\ 0 <= move < 64 /\
  exists v, valid !! Z.to_nat move = Some v /\ truthy v = true.
Proof.
  unfold Driver.attempt.
  destruct (int line) as [m|]; [|split; [discriminate | intros [? _]; discriminate]].
  destruct ((0 <=? m) && (m <? 64)) eqn:Hr.
  - apply andb_true_iff in Hr as [H0 H64].
    apply Z.leb_le in H0. apply Z.ltb_lt in H64.
    destruct (valid !! Z.to_nat m) as [v|] eqn:Hv.
    + destruct (truthy v) eqn:Ht.
      * split.
        -- intros [= <-]. split; [reflexivity | split; [lia | eauto]].
        -- intros ([= ->] & _ & _). reflexivity.
      * split; [discriminate|].
        intros ([= <-] & _ & v' & Hv' & Ht'). congruence.
    + split; [discriminate|].
      intros ([= <-] & _ & v' & Hv' & _). congruence.
  - split; [discriminate|].
    intros ([= <-] & Hm & _).
    apply andb_false_iff in Hr as [Hr | Hr];
      [apply Z.leb_gt in Hr | apply Z.ltb_ge in Hr]; lia.
Qed.

Lemma attempt_accept_valid (valid : list Z) (line : string) :
  valid_entry int valid line <->
  exists move, Driver.attempt int valid line = Driver.Accept move.
Proof.
  unfold valid_entry. split.
  - intros (m & v & Hi & Hm & Hv & Ht). exists m.
    apply attempt_accept. eauto.
  - intros (m & Ha). apply attempt_accept in Ha as (Hi & Hm & v & Hv & Ht).
    eauto 6.
Qed.

Lemma attempt_reject_complaint (valid : list Z) (line c : string) :
  Driver.attempt int valid line = Driver.Reject c -> is_complaint c.
Proof.
  unfold Driver.attempt, is_complaint.
  destruct (int line) as [m|]; [|intros [= <-]; auto].
  destruct ((0 <=? m) && (m <? 64)); [|intros [= <-]; auto].
  destruct (valid !! Z.to_nat m) as [v|]; [|intros [= <-]; auto].
  destruct (truthy v); [discriminate | intros [= <-]; auto].
Qed.

(** The loop skips every line that names no legal move, one complaint
    each, and returns at the first line that does. *)
Lemma ask_first_valid (valid : list Z) (inputs : list string) :
  Exists (valid_entry int valid) inputs ->
  exists before line rest move complaints,
    inputs = before ++ line :: rest /\
    Forall (fun l => ~ valid_entry int valid l) before /\
    Driver.attempt int valid line = Driver.Accept move /\
    List.length complaints = List.length before /\
    Forall is_complaint complaints /\
    Driver.ask int valid inputs =
      (reprompts complaints ++ [Prompt "Enter your move (0-63): "],
       Some (move, rest)).
Proof.
  induction inputs as [|l inputs IH]; intros HEx; [inversion HEx|].
  simpl. destruct (Driver.attempt int valid l) as [m | c] eqn:Ha.
  - exists [], l, inputs, m, []. repeat split; auto.
  - assert (~ valid_entry int valid l) as Hl.
    { rewrite attempt_accept_valid. intros [m Hm]. congruence. }
    apply Exists_cons in HEx as [HEx | HEx]; [contradiction|].
    destruct (IH HEx) as (before & line & rest & m & cs & -> & Hb & Hacc & Hlen & Hcs & ->).
    exists (l :: before), line, rest, m, (c :: cs).
    repeat split; simpl; auto.
    constructor; [eapply attempt_reject_complaint; eauto | assumption].
Qed.

(** C8. Whenever some line of the input names a legal move, [human_player]
    returns: the move is the first such line read as an integer, it lies
    in 0..63 and its entry in [getValidMoves board 1] is truthy; every
    line before it was answered with one complaint and a new prompt, and
    the lines after it are left unread. *)
Theorem human_player_returns_legal (board : Board) (inputs : list string) :
  Exists (valid_entry int (getValidMoves g board 1)) inputs ->
  exists before line rest move complaints,
    inputs = before ++ line :: rest /\
    Forall (fun l => ~ valid_entry int (getValidMoves g board 1) l) before /\
    int line = Some move /\
    0 <= move < 64 /\
    (exists v, getValidMoves g board 1 !! Z.to_nat move = Some v /\
               truthy v = true) /\
    List.length complaints = List.length before /\
    Forall is_complaint complaints /\
    Driver.human_player g int board inputs =
      (map Print (Display.display board)
         ++ PrintValid (Driver.valid_indices 0 (getValidMoves g board 1))
         :: reprompts complaints ++ [Prompt "Enter your move (0-63): "],
       Some (move, rest)).
Proof.
  intros HEx.
  destruct (ask_first_valid _ _ HEx)
    as (before & line & rest & m & cs & Hin & Hb & Hacc & Hlen & Hcs & Hask).
  apply attempt_accept in Hacc as (Hi & Hm & Hv).
  exists before, line, rest, m, cs.
  unfold Driver.human_player. rewrite Hask.
  repeat split; auto; lia.
Qed.

End HumanPlayer.

Lemma human_player_returns_legal_witness :
  let g := Corner.g 8 in
  let board := getInitBoard g in
  let inputs := ["x"; "99"; "5"; "7"]%string in
  exists before line rest move complaints,
    inputs = before ++ line :: rest /\
    Forall (fun l => ~ valid_entry Corner.int (getValidMoves g board 1) l) before /\
    Corner.int line = Some move /\
    0 <= move < 64 /\
    (exists v, getValidMoves g board 1 !! Z.to_nat move = Some v /\
               truthy v = true) /\
    List.length complaints = List.length before /\
    Forall is_complaint complaints /\
    Driver.human_player g Corner.int board inputs =
      (map Print (Display.display board)
         ++ PrintValid (Driver.valid_indices 0 (getValidMoves g board 1))
         :: reprompts complaints ++ [Prompt "Enter your move (0-63): "],
       Some (move, rest)).
Proof.
  apply (human_player_returns_legal (Corner.g 8) Corner.int).
  apply Exists_cons_tl, Exists_cons_tl, Exists_cons_hd.
  exists 5, 1. split; [reflexivity | split; [lia | split; reflexivity]].
Defined.

(** ** play_game *)

Section PlayGame.
Variable g : Game.
Variable engine : SearchEngine.
Variable int : string -> option Z.

(** The human's turn: [human_player] on the board as it is; the search
    object is not touched. *)
Lemma take_turn_human (board : Board) (inputs : list string)
    (mcts : Mcts engine) :
  Driver.take_turn g engine int board 1 inputs mcts
  = ((Driver.human_player g int board inputs).1,
     returned (Driver.human_player g int board inputs).2,
     unread (Driver.human_player g int board inputs).2,
     mcts).
Proof.
  unfold Driver.take_turn. simpl.
  destruct (Driver.human_player g int board inputs) as [out [[move rest] |]];
    reflexivity.
Qed.

(** Any other turn: [ai_player] on [board * player]; no line is read. *)
Lemma take_turn_ai (board : Board) (player : Z) (inputs : list string)
    (mcts : Mcts engine) :
  player <> 1 ->
  Driver.take_turn g engine int board player inputs mcts
  = ([Print "AI is thinking..."],
     Some (Driver.ai_player engine mcts (board_mul board player)).1,
     inputs,
     (Driver.ai_player engine mcts (board_mul board player)).2).
Proof.
  intros Hp. unfold Driver.take_turn.
  destruct (Z.eqb_spec player 1) as [-> | _]; [contradiction|].
  destruct (Driver.ai_player engine mcts (board_mul board player)) as [a mcts'].
  reflexivity.
Qed.

Lemma game_over_None (board : Board) (player : Z) :
  Driver.game_over g board player = None ->
  getGameEnded g board (- player) = 0.
Proof.
  unfold Driver.game_over.
  destruct (Z.eqb_spec (getGameEnded g board (- player)) 0) as [H | H]; simpl;
    [intros _; exact H | discriminate].
Qed.

(** The first iteration of the loop is about the state the loop was
    entered in, and its move is the one [take_turn] came to there. *)
Lemma loop_head (fuel : nat) (board : Board) (player : Z)
    (inputs : list string) (mcts : Mcts engine) (it : Driver.Iteration) :
  (Driver.loop g engine int fuel board player inputs mcts).1 !! 0%nat = Some it ->
  Driver.it_board it = board /\ Driver.it_player it = player /\
  Driver.it_inputs it = inputs /\ Driver.it_mcts it = mcts /\
  Driver.it_move it
    = (Driver.take_turn g engine int board player inputs mcts).1.1.2.
Proof.
  destruct fuel as [|fuel]; simpl; [discriminate|].
  destruct (Driver.take_turn g engine int board player inputs mcts)
    as [[[out action] inputs'] mcts'].
  destruct action as [[action | e] |]; simpl;
    try (intros [= <-]; repeat split).
  destruct (getNextState g board player action) as [[board' player'] | e]; simpl;
    try (intros [= <-]; repeat split).
  destruct (Driver.game_over g board' player'); simpl;
    try (intros [= <-]; repeat split).
  destruct (Driver.loop g engine int fuel board' player' inputs' mcts').
  simpl. intros [= <-]. repeat split.
Qed.

(** Every iteration holds the move that [take_turn] came to in the state
    the iteration began in. *)
Lemma loop_moves (fuel : nat) :
  forall board player inputs mcts i it,
    (Driver.loop g engine int fuel board player inputs mcts).1 !! i = Some it ->
    Driver.it_move it = (turn_of g engine int it).1.1.2.
Proof.
  unfold turn_of.
  induction fuel as [|fuel IH]; intros board player inputs mcts i it;
    [simpl; discriminate|].
  destruct i as [|i].
  { intros Hit. destruct (loop_head _ _ _ _ _ _ Hit) as (-> & -> & -> & -> & ->).
    reflexivity. }
  simpl.
  destruct (Driver.take_turn g engine int board player inputs mcts)
    as [[[out action] inputs'] mcts'].
  destruct action as [[action | e] |]; simpl; try discriminate.
  destruct (getNextState g board player action) as [[board' player'] | e]; simpl;
    try discriminate.
  destruct (Driver.game_over g board' player'); simpl; try discriminate.
  specialize (IH board' player' inputs' mcts' i it).
  destruct (Driver.loop g engine int fuel board' player' inputs' mcts') as [its st].
  exact IH.
Qed.

(** From one iteration to the next: the move was applied with
    [getNextState], the game was not over, and the lines left and the
    search object are as [take_turn] left them. *)
Lemma loop_next (fuel : nat) :
  forall board player inputs mcts i it it',
    (Driver.loop g engine int fuel board player inputs mcts).1 !! i = Some it ->
    (Driver.loop g engine int fuel board player inputs mcts).1 !! S i = Some it' ->
    exists action,
      Driver.it_move it = Some (Ok action) /\
      getNextState g (Driver.it_board it) (Driver.it_player it) action
        = Ok (Driver.it_board it', Driver.it_player it') /\
      getGameEnded g (Driver.it_board it') (- Driver.it_player it') = 0 /\
      Driver.it_inputs it' = (turn_of g engine int it).1.2 /\
      Driver.it_mcts it' = (turn_of g engine int it).2.
Proof.
  unfold turn_of.
  induction fuel as [|fuel IH]; intros board player inputs mcts i it it';
    simpl; [discriminate|].
  destruct (Driver.take_turn g engine int board player inputs mcts)
    as [[[out action] inputs'] mcts'] eqn:Hturn.
  destruct action as [[action | e] |]; simpl;
    try (intros _ H; rewrite lookup_nil in H; discriminate H).
  destruct (getNextState g board player action) as [[board' player'] | e] eqn:Hnext;
    simpl; try (intros _ H; rewrite lookup_nil in H; discriminate H).
  destruct (Driver.game_over g board' player') eqn:Hover; simpl;
    try (intros _ H; rewrite lookup_nil in H; discriminate H).
  pose proof (loop_head fuel board' player' inputs' mcts') as Hhead.
  specialize (IH board' player' inputs' mcts').
  destruct (Driver.loop g engine int fuel board' player' inputs' mcts') as [its st].
  simpl in *. destruct i as [|i]; simpl.
  - intros [= <-] Hit'. destruct (Hhead _ Hit') as (-> & -> & -> & -> & _). simpl.
    rewrite Hturn. simpl.
    exists action. repeat split; try assumption.
    apply game_over_None; exact Hover.
  - apply IH.
Qed.

(** [ai_player] hands its board on to [getActionProb] with temperature 0
    and takes the first maximum of what comes back. *)
Lemma ai_player_calls_getActionProb (mcts : Mcts engine) (board : Board) :
  Driver.ai_player engine mcts board
  = (let! pi := (getActionProb engine mcts board 0%Q).1 in
     let! a := np_argmax pi in Ok (Z.of_nat a),
     (getActionProb engine mcts board 0%Q).2).
Proof.
  unfold Driver.ai_player.
  destruct (getActionProb engine mcts board 0%Q) as [pi mcts']. reflexivity.
Qed.

(** C2. In every iteration of the loop of [play_game] on which it is the
    AI's turn (player -1), the value of [action] is what [ai_player]
    returns on the sign-inverted board [board * player], called on the
    search object as the iteration found it, and so what [getActionProb]
    answers for that board at temperature 0 decides it. On the human's
    turn it is what [human_player] returns on the board as it is. That
    value is the move the game goes on with, and after the AI's turn the
    search object is what [getActionProb] left. *)
Theorem ai_is_given_the_negated_board
    (fuel : nat) (inputs : list string) (mcts : Mcts engine)
    (i : nat) (it : Driver.Iteration) :
  (Driver.play_game g engine int fuel inputs mcts).1 !! i = Some it ->
  (Driver.it_player it = -1 ->
     board_mul (Driver.it_board it) (Driver.it_player it)
       = negate_board (Driver.it_board it) /\
     Driver.it_move it
       = Some (Driver.ai_player engine (Driver.it_mcts it)
                 (negate_board (Driver.it_board it))).1 /\
     Driver.it_move it
       = Some (let! pi := (getActionProb engine (Driver.it_mcts it)
                             (negate_board (Driver.it_board it)) 0%Q).1 in
               let! a := np_argmax pi in Ok (Z.of_nat a))) /\
  (Driver.it_player it = 1 ->
     Driver.it_move it
       = returned (Driver.human_player g int (Driver.it_board it)
                     (Driver.it_inputs it)).2) /\
  (forall it',
     (Driver.play_game g engine int fuel inputs mcts).1 !! S i = Some it' ->
     (exists action,
        Driver.it_move it = Some (Ok action) /\
        getNextState g (Driver.it_board it) (Driver.it_player it) action
          = Ok (Driver.it_board it', Driver.it_player it')) /\
     (Driver.it_player it = -1 ->
        Driver.it_mcts it'
          = (getActionProb engine (Driver.it_mcts it)
               (negate_board (Driver.it_board it)) 0%Q).2) /\
     (Driver.it_player it = 1 -> Driver.it_mcts it' = Driver.it_mcts it)).
Proof.
  intros Hi. unfold Driver.play_game in *.
  pose proof (loop_moves _ _ _ _ _ _ _ Hi) as Hmove. unfold turn_of in Hmove.
  split; [|split].
  - intros Hp. rewrite Hp in *. rewrite board_mul_opp.
    rewrite take_turn_ai in Hmove by lia. simpl in Hmove.
    rewrite board_mul_opp in Hmove.
    split; [reflexivity | split; [exact Hmove|]].
    rewrite Hmove, ai_player_calls_getActionProb. reflexivity.
  - intros Hp. rewrite Hp, take_turn_human in Hmove. exact Hmove.
  - intros it' Hi'.
    destruct (loop_next _ _ _ _ _ _ _ _ Hi Hi')
      as (action & Hact & Hnext & _ & _ & Hmcts).
    unfold turn_of in Hmcts.
    split; [eauto | split].
    + intros Hp. rewrite Hp in Hmcts. rewrite take_turn_ai in Hmcts by lia.
      simpl in Hmcts.
      rewrite board_mul_opp, ai_player_calls_getActionProb in Hmcts.
      exact Hmcts.
    + intros Hp. rewrite Hp, take_turn_human in Hmcts. exact Hmcts.
Qed.

End PlayGame.

Lemma ai_is_given_the_negated_board_witness :
  exists it,
    (Driver.play_game (Corner.g 2) (Corner.engine 2) Corner.int 5
       ["0"%string] (∅ : gmap Board Spec.Node)).1 !! 1%nat = Some it /\
    Driver.it_player it = -1 /\
    Driver.it_board it = [[1; 0]; [0; 0]] /\
    Driver.it_move it
      = Some (Driver.ai_player (Corner.engine 2) (Driver.it_mcts it)
                [[-1; 0]; [0; 0]]).1.
Proof.
  assert (option_map (fun it => (Driver.it_player it, Driver.it_board it))
            ((Driver.play_game (Corner.g 2) (Corner.engine 2) Corner.int 5
                ["0"%string] (∅ : gmap Board Spec.Node)).1 !! 1%nat)
          = Some (-1, [[1; 0]; [0; 0]])) as Hst by (vm_compute; reflexivity).
  destruct ((Driver.play_game (Corner.g 2) (Corner.engine 2) Corner.int 5
               ["0"%string] (∅ : gmap Board Spec.Node)).1 !! 1%nat)
    as [it|] eqn:E; [|discriminate Hst].
  injection Hst as Hp Hb. exists it.
  split; [reflexivity | split; [exact Hp | split; [exact Hb|]]].
  destruct (proj1 (ai_is_given_the_negated_board
              (Corner.g 2) (Corner.engine 2) Corner.int 5 ["0"%string]
              (∅ : gmap Board Spec.Node) 1%nat it E) Hp) as (_ & Hmove & _).
  rewrite Hb in Hmove. exact Hmove.
Defined.

(** What [play_game] prints when the game is over: the board, then the
    announcement for the number [getGameEnded] gives for the player who
    made the last move. *)
Lemma game_over_announces (g : Game) (board : Board) (player : Z)
    (out : list Output) :
  Driver.game_over g board player = Some out <->
  getGameEnded g board (- player) <> 0 /\
  out = map Print (Display.display board)
        ++ [Print (Driver.announce (getGameEnded g board (- player)))].
Proof.
  unfold Driver.game_over.
  destruct (getGameEnded g board (- player) =? 0) eqn:E; simpl.
  - apply Z.eqb_eq in E. split; [discriminate | intros [H _]; contradiction].
  - apply Z.eqb_neq in E. split.
    + intros [= <-]. split; [exact E | reflexivity].
    + intros [_ ->]. reflexivity.
Qed.

(** After a winning move of the AI the player to move next is +1, so the
    driver reads the result for player -1. On any game object whose
    [getGameEnded] is sign-symmetric, a board that is a loss for player
    +1 is then announced as a win for White. *)
Lemma ai_win_reads_as_white_win (g : Game) (board : Board) :
  (forall b p, getGameEnded g b (- p) = - getGameEnded g b p) ->
  getGameEnded g board 1 = -1 ->
  Driver.game_over g board 1
  = Some (map Print (Display.display board) ++ [Print "White (You) win!"]).
Proof.
  intros Hsym Hloss. apply game_over_announces.
  rewrite Hsym, Hloss. split; [lia | reflexivity].
Qed.

(** C1 at a game the AI wins. On the 8x8 corner game, from the late
    position, White plays 62 and Black takes the far corner: the terminal
    result is a win for player -1, the loop ends, and the last line
    printed is the announcement for White. *)
Theorem ai_win_is_announced_for_white :
  let g := Corner.g 8 in
  let run := Driver.loop g (Corner.engine 8) Corner.int 2
               Corner.late_board 1 ["62"%string] (∅ : gmap Board Spec.Node) in
  run.2 = Driver.GameOver /\
  (exists it,
     last run.1 = Some it /\
     Driver.it_player it = -1 /\
     getNextState g (Driver.it_board it) (-1) 63 = Ok (Corner.final_board, 1) /\
     last (Driver.it_out it) = Some (Print "White (You) win!")) /\
  Spec.outcome (Corner.model 8) Corner.final_board = Some (-1) /\
  getGameEnded g Corner.final_board (-1) = 1 /\
  getGameEnded g Corner.final_board 1 = -1.
Proof.
  intros g run.
  assert (option_map
            (fun it => (Driver.it_player it,
                        getNextState g (Driver.it_board it) (-1) 63,
                        last (Driver.it_out it)))
            (last run.1)
          = Some (-1, Ok (Corner.final_board, 1),
                  Some (Print "White (You) win!"))) as Hlast
    by (vm_compute; reflexivity).
  split; [vm_compute; reflexivity|].
  split; [|repeat split; vm_compute; reflexivity].
  destruct (last run.1) as [it|]; [|discriminate Hlast].
  injection Hlast as Hp Hnext Hout. exists it. auto.
Qed.

(** ** The game model *)

(** The game object built from a game model reads the terminal result
    relative to the player asked for; it is one of the sign-symmetric
    game objects [ai_win_reads_as_white_win] speaks of. *)
Lemma game_of_sign_symmetric (gm : Spec.GameModel) (state : Board) (player : Z) :
  Spec.result gm state player
    = option_map Z.opp (Spec.result gm state (- player)) /\
  getGameEnded (Spec.game_of gm) state (- player)
    = - getGameEnded (Spec.game_of gm) state player.
Proof.
  simpl. unfold Spec.getGameEnded_number, Spec.result.
  destruct (Spec.outcome gm state) as [w|]; simpl.
  - split; [f_equal|]; lia.
  - split; reflexivity.
Qed.

(** ** argmax *)

Section ArgmaxSpec.
Context {A : Type} (lt : A -> A -> bool) (Hlt : StrictWeak lt).

Lemma argmax_from_first_max (rest : list A) :
  forall (seen : list A) (best : A) (besti : nat),
    seen !! besti = Some best ->
    (forall j y, seen !! j = Some y -> lt best y = false) ->
    (forall j y, (j < besti)%nat -> seen !! j = Some y -> lt y best = true) ->
    first_max lt (seen ++ rest)
      (argmax_from lt best besti (List.length seen) rest).
Proof.
  induction rest as [|x rest IH]; intros seen best besti Hbest Hmax Hfirst; simpl.
  - rewrite app_nil_r. exists best. auto.
  - replace (seen ++ x :: rest) with ((seen ++ [x]) ++ rest)
      by (rewrite <- app_assoc; reflexivity).
    replace (S (List.length seen)) with (List.length (seen ++ [x]))
      by (rewrite length_app; simpl; lia).
    destruct (lt best x) eqn:Hx.
    + replace (List.length seen) with (List.length seen + 0)%nat at 1 by lia.
      apply IH.
      * rewrite lookup_app_r by lia.
        replace (List.length seen + 0 - List.length seen)%nat with 0%nat by lia.
        reflexivity.
      * intros j y Hj. apply lookup_app_Some in Hj as [Hj | [_ Hj]].
        -- destruct (lt x y) eqn:Hxy; [|reflexivity].
           rewrite <- (Hmax j y Hj). symmetry.
           eapply lt_trans; eauto.
        -- apply list_lookup_singleton_Some in Hj as [_ <-].
           apply lt_irrefl; assumption.
      * intros j y Hlen Hj.
        rewrite lookup_app_l in Hj by lia.
        destruct (lt_between lt Hlt best y x Hx) as [Hy | Hy]; [|exact Hy].
        rewrite (Hmax j y Hj) in Hy. discriminate.
    + apply IH.
      * rewrite lookup_app_l; [exact Hbest|].
        apply lookup_lt_Some in Hbest. exact Hbest.
      * intros j y Hj. apply lookup_app_Some in Hj as [Hj | [_ Hj]].
        -- eauto.
        -- apply list_lookup_singleton_Some in Hj as [_ <-]. exact Hx.
      * intros j y Hlen Hj.
        apply lookup_lt_Some in Hbest.
        rewrite lookup_app_l in Hj by lia. eauto.
Qed.

(** The scan finds the first maximum of a list that has an element. *)
Lemma argmax_first_max (l : list A) (i : nat) :
  argmax lt l = Some i -> first_max lt l i.
Proof.
  destruct l as [|x l]; simpl; [discriminate|].
  intros [= <-].
  apply (argmax_from_first_max l [x] x 0%nat).
  - reflexivity.
  - intros [|j] y Hj; simpl in Hj; [|rewrite lookup_nil in Hj; discriminate].
    injection Hj as <-. apply lt_irrefl; assumption.
  - intros j y Hj. lia.
Qed.

Lemma argmax_is_Some (l : list A) :
  l <> [] -> exists i, argmax lt l = Some i.
Proof.
  destruct l; [contradiction | simpl; eauto].
Qed.

(** A list has one first maximum. *)
Lemma first_max_unique (l : list A) (i j : nat) :
  first_max lt l i -> first_max lt l j -> i = j.
Proof.
  intros (x & Hx & Hxmax & Hxfirst) (y & Hy & Hymax & Hyfirst).
  destruct (lt_eq_lt_dec i j) as [[Hij | Hij] | Hij]; [|exact Hij|].
  - pose proof (Hyfirst i x Hij Hx) as H.
    rewrite (Hxmax j y Hy) in H. discriminate.
  - pose proof (Hxfirst j y Hij Hy) as H.
    rewrite (Hymax i x Hx) in H. discriminate.
Qed.

End ArgmaxSpec.

Lemma nat_ltb_strict_weak : StrictWeak Nat.ltb.
Proof.
  split.
  - intros x. apply Nat.ltb_irrefl.
  - intros x y z H1 H2. apply Nat.ltb_lt in H1, H2. apply Nat.ltb_lt. lia.
  - intros x y z H. apply Nat.ltb_lt in H.
    destruct (lt_dec x y) as [Hxy | Hxy]; [left | right]; apply Nat.ltb_lt; lia.
Qed.

Lemma Qlt_bool_iff (x y : Q) : Qlt_bool x y = true <-> (x < y)%Q.
Proof.
  unfold Qlt_bool. rewrite negb_true_iff. split.
  - intros H. destruct (Qlt_le_dec x y) as [Hlt | Hle]; [exact Hlt|].
    apply Qle_bool_iff in Hle. congruence.
  - intros H. destruct (Qle_bool y x) eqn:E; [|reflexivity].
    apply Qle_bool_iff in E. apply Qle_not_lt in E. contradiction.
Qed.

Lemma Qlt_bool_strict_weak : StrictWeak Qlt_bool.
Proof.
  split.
  - intros x. destruct (Qlt_bool x x) eqn:E; [|reflexivity].
    apply Qlt_bool_iff in E. apply Qlt_irrefl in E. contradiction.
  - intros x y z H1 H2. apply Qlt_bool_iff in H1, H2. apply Qlt_bool_iff.
    eapply Qlt_trans; eauto.
  - intros x y z H. apply Qlt_bool_iff in H.
    destruct (Qlt_le_dec x y) as [Hxy | Hyx].
    + left. apply Qlt_bool_iff. exact Hxy.
    + right. apply Qlt_bool_iff. eapply Qle_lt_trans; eauto.
Qed.

Lemma score_lt_strict_weak : StrictWeak Spec.score_lt.
Proof.
  destruct Qlt_bool_strict_weak as [Hi Ht Hb].
  split.
  - intros [x|]; simpl; auto.
  - intros [x|] [y|] [z|]; simpl; eauto; discriminate.
  - intros [x|] [y|] [z|]; simpl; eauto.
Qed.

(** ** one-hot vectors *)

Lemma length_one_hot (size best : nat) :
  List.length (Spec.one_hot size best) = size.
Proof. unfold Spec.one_hot. rewrite length_fmap, length_seq. reflexivity. Qed.

Lemma lookup_one_hot (size best j : nat) :
  (j < size)%nat ->
  Spec.one_hot size best !! j = Some (if Nat.eqb j best then 1%Q else 0%Q).
Proof.
  intros Hj. unfold Spec.one_hot.
  rewrite list_lookup_fmap, lookup_seq_lt by exact Hj. reflexivity.
Qed.

Lemma lookup_one_hot_inv (size best j : nat) (x : Q) :
  Spec.one_hot size best !! j = Some x ->
  (j < size)%nat /\ x = (if Nat.eqb j best then 1%Q else 0%Q).
Proof.
  intros H. assert (j < size)%nat as Hj.
  { apply lookup_lt_Some in H. rewrite length_one_hot in H. exact H. }
  rewrite lookup_one_hot in H by exact Hj. injection H as <-. auto.
Qed.

Lemma one_hot_first_max (size best : nat) :
  (best < size)%nat -> first_max Qlt_bool (Spec.one_hot size best) best.
Proof.
  intros Hb. exists 1%Q. split; [|split].
  - rewrite lookup_one_hot by exact Hb. rewrite Nat.eqb_refl. reflexivity.
  - intros j y Hj. apply lookup_one_hot_inv in Hj as [_ ->].
    destruct (Nat.eqb j best); reflexivity.
  - intros j y Hlt Hj. apply lookup_one_hot_inv in Hj as [_ ->].
    destruct (Nat.eqb_spec j best); [lia | reflexivity].
Qed.

Lemma np_argmax_one_hot (size best : nat) :
  (best < size)%nat -> np_argmax (Spec.one_hot size best) = Ok best.
Proof.
  intros Hb. unfold np_argmax.
  destruct (argmax_is_Some Qlt_bool (Spec.one_hot size best)) as [i Hi].
  { intros E. apply (f_equal List.length) in E.
    rewrite length_one_hot in E. simpl in E. lia. }
  rewrite Hi. f_equal.
  eapply (first_max_unique Qlt_bool).
  - apply argmax_first_max; [exact Qlt_bool_strict_weak | exact Hi].
  - apply one_hot_first_max. exact Hb.
Qed.

Lemma Qsum_cons (x : Q) (l : list Q) :
  Spec.Qsum (x :: l) = (x + Spec.Qsum l)%Q.
Proof. reflexivity. Qed.

Lemma Qsum_indicator_outside (best len start : nat) :
  (best < start \/ start + len <= best)%nat ->
  (Spec.Qsum ((fun a => if Nat.eqb a best then 1%Q else 0%Q) <$> seq start len)
   == 0)%Q.
Proof.
  revert start. induction len as [|len IH]; intros start Hout.
  - reflexivity.
  - change (seq start (S len)) with (start :: seq (S start) len).
    rewrite fmap_cons, Qsum_cons, IH by lia.
    destruct (Nat.eqb_spec start best); [lia | reflexivity].
Qed.

Lemma Qsum_indicator_inside (best len start : nat) :
  (start <= best < start + len)%nat ->
  (Spec.Qsum ((fun a => if Nat.eqb a best then 1%Q else 0%Q) <$> seq start len)
   == 1)%Q.
Proof.
  revert start. induction len as [|len IH]; intros start Hin; [lia|].
  change (seq start (S len)) with (start :: seq (S start) len).
  rewrite fmap_cons, Qsum_cons.
  destruct (Nat.eqb_spec start best) as [-> | Hne].
  - rewrite Qsum_indicator_outside by lia. reflexivity.
  - rewrite IH by lia. reflexivity.
Qed.

Lemma Qsum_one_hot (size best : nat) :
  (best < size)%nat -> (Spec.Qsum (Spec.one_hot size best) == 1)%Q.
Proof.
  intros Hb. unfold Spec.one_hot. apply Qsum_indicator_inside. lia.
Qed.

(** ** The search tree *)

Ltac bind_ok H :=
  match type of H with
  | bind ?c _ = Ok _ =>
      let E := fresh "E" in
      destruct c eqn:E; simpl in H; [|discriminate H]
  end.

Lemma count_of_visit (a : nat) (v : Q) (node : Spec.Node) (b : nat) :
  Spec.count_of (Spec.visit a v node) b
  = if decide (a = b) then
      match Spec.visits node !! a with
      | Some n => S n
      | None => 0%nat
      end
    else Spec.count_of node b.
Proof.
  unfold Spec.count_of, Spec.visit; simpl.
  destruct (decide (a = b)) as [<- | Hne].
  - rewrite list_lookup_alter_eq. destruct (Spec.visits node !! a); reflexivity.
  - rewrite list_lookup_alter_ne by exact Hne. reflexivity.
Qed.

Lemma count_of_visit_le (a : nat) (v : Q) (node : Spec.Node) (b : nat) :
  (Spec.count_of node b <= Spec.count_of (Spec.visit a v node) b)%nat.
Proof.
  rewrite count_of_visit. destruct (decide (a = b)) as [<- | Hne]; [|lia].
  unfold Spec.count_of. destruct (Spec.visits node !! a); simpl; lia.
Qed.

Lemma grows_refl (tree : gmap Board Spec.Node) : grows tree tree.
Proof. intros s node Hs. exists node. split; [exact Hs | intros; lia]. Qed.

Lemma grows_trans (t1 t2 t3 : gmap Board Spec.Node) :
  grows t1 t2 -> grows t2 t3 -> grows t1 t3.
Proof.
  intros H12 H23 s node Hs.
  destruct (H12 s node Hs) as (n2 & Hs2 & Hle2).
  destruct (H23 s n2 Hs2) as (n3 & Hs3 & Hle3).
  exists n3. split; [exact Hs3|]. intros a. specialize (Hle2 a). specialize (Hle3 a). lia.
Qed.

Lemma grows_visited (t1 t2 : gmap Board Spec.Node) (state : Board) :
  grows t1 t2 -> visited t1 state -> visited t2 state.
Proof.
  intros Hg (node & a & Hs & Ha).
  destruct (Hg state node Hs) as (node' & Hs' & Hle).
  exists node', a. split; [exact Hs'|]. specialize (Hle a). lia.
Qed.

Section SearchProps.
Variable gm : Spec.GameModel.
Variable evaluate : Board -> Res (list Q * Q).
Variable cfg : Spec.Config.
Variable sqrt : Q -> Q.

Lemma new_node_ok (state : Board) (policy : list Q) :
  node_ok gm state (Spec.new_node gm state policy).
Proof.
  split; simpl.
  - apply length_replicate.
  - intros a. unfold Spec.count_of; simpl.
    destruct (replicate (Spec.actionSize gm) 0%nat !! a) as [n|] eqn:E; simpl; [|lia].
    apply lookup_replicate in E as [-> _]. lia.
Qed.

Lemma visit_ok (state : Board) (node : Spec.Node) (a : nat) (v : Q) :
  node_ok gm state node ->
  Spec.legal gm state 1 a = true ->
  node_ok gm state (Spec.visit a v node).
Proof.
  intros [Hlen Hleg] Ha. split.
  - simpl. rewrite length_alter. exact Hlen.
  - intros b. rewrite count_of_visit.
    destruct (decide (a = b)) as [<- | Hne]; [intros _; exact Ha | apply Hleg].
Qed.

Lemma select_lt (state : Board) (node : Spec.Node) (a : nat) :
  Spec.select gm cfg sqrt state node = Ok a -> (a < Spec.actionSize gm)%nat.
Proof.
  unfold Spec.select.
  destruct (argmax _ _) as [i|] eqn:E; [|discriminate].
  intros [= <-].
  apply argmax_first_max in E; [|exact score_lt_strict_weak].
  destruct E as (x & Hx & _).
  apply lookup_lt_Some in Hx. rewrite length_fmap, length_seq in Hx. exact Hx.
Qed.

Lemma applyMove_legal (state : Board) (player : Z) (a : nat) (next : Board * Z) :
  Spec.applyMove gm state player a = Ok next ->
  Spec.legal gm state player a = true.
Proof.
  unfold Spec.applyMove. destruct (Spec.legal gm state player a); [reflexivity | discriminate].
Qed.

(** A simulation only adds to the tree: every node stays, and no visit
    count goes down. *)
Lemma search_grows (fuel : nat) :
  forall tree state v tree',
    Spec.search gm evaluate cfg sqrt fuel tree state = Ok (v, tree') ->
    grows tree tree'.
Proof.
  induction fuel as [|fuel IH]; intros tree state v tree' Hs; simpl in Hs;
    [discriminate|].
  destruct (Spec.result gm state 1) as [r|].
  { injection Hs as _ <-. apply grows_refl. }
  destruct (tree !! state) as [node|] eqn:Hnode.
  - bind_ok Hs. bind_ok Hs. bind_ok Hs.
    destruct a1 as [below tree1]. simpl in Hs. injection Hs as _ <-.
    pose proof (IH _ _ _ _ E1) as Hg1.
    intros s n Hsn. destruct (Hg1 s n Hsn) as (n1 & Hn1 & Hle).
    destruct (decide (state = s)) as [<- | Hne].
    + exists (Spec.visit a (- below)%Q n1). split.
      * rewrite lookup_alter_eq, Hn1. reflexivity.
      * intros b. specialize (Hle b).
        pose proof (count_of_visit_le a (- below)%Q n1 b). lia.
    + exists n1. split; [|exact Hle].
      rewrite lookup_alter_ne by exact Hne. exact Hn1.
  - bind_ok Hs. injection Hs as _ <-.
    intros s n Hsn. exists n. split; [|intros; lia].
    rewrite lookup_insert_ne; [exact Hsn|]. intros <-. congruence.
Qed.

(** A simulation keeps the tree well formed. *)
Lemma search_ok (fuel : nat) :
  forall tree state v tree',
    tree_ok gm tree ->
    Spec.search gm evaluate cfg sqrt fuel tree state = Ok (v, tree') ->
    tree_ok gm tree' /\ grows tree tree'.
Proof.
  induction fuel as [|fuel IH]; intros tree state v tree' Hok Hs; simpl in Hs;
    [discriminate|].
  destruct (Spec.result gm state 1) as [r|].
  { injection Hs as _ <-. split; [exact Hok | apply grows_refl]. }
  destruct (tree !! state) as [node|] eqn:Hnode.
  - bind_ok Hs. bind_ok Hs. bind_ok Hs.
    destruct a1 as [below tree1]. simpl in Hs. injection Hs as _ <-.
    destruct (IH _ _ _ _ Hok E1) as [Hok1 Hg1].
    pose proof (applyMove_legal _ _ _ _ E0) as Hlegal.
    split.
    + intros s n Hsn. apply lookup_alter_Some in Hsn
        as [(<- & n0 & Hn0 & ->) | [Hne Hsn]].
      * apply visit_ok; [exact (Hok1 _ _ Hn0) | exact Hlegal].
      * exact (Hok1 _ _ Hsn).
    + intros s n Hsn. destruct (Hg1 s n Hsn) as (n1 & Hn1 & Hle).
      destruct (decide (state = s)) as [<- | Hne].
      * exists (Spec.visit a (- below)%Q n1). split.
        -- rewrite lookup_alter_eq, Hn1. reflexivity.
        -- intros b. specialize (Hle b).
           pose proof (count_of_visit_le a (- below)%Q n1 b). lia.
      * exists n1. split; [|exact Hle].
        rewrite lookup_alter_ne by exact Hne. exact Hn1.
  - bind_ok Hs. injection Hs as _ <-. split.
    + apply map_Forall_insert_2; [apply new_node_ok | exact Hok].
    + intros s n Hsn. exists n. split; [|intros; lia].
      rewrite lookup_insert_ne; [exact Hsn|]. intros <-. congruence.
Qed.

(** A simulation that starts at a state of the tree where the game goes
    on visits an action there. *)
Lemma search_visits (fuel : nat) (tree : gmap Board Spec.Node) (state : Board)
    (v : Q) (tree' : gmap Board Spec.Node) :
  tree_ok gm tree ->
  Spec.result gm state 1 = None ->
  is_Some (tree !! state) ->
  Spec.search gm evaluate cfg sqrt fuel tree state = Ok (v, tree') ->
  visited tree' state.
Proof.
  intros Hok Hres [node Hnode] Hs.
  destruct fuel as [|fuel]; simpl in Hs; [discriminate|].
  rewrite Hres, Hnode in Hs.
  bind_ok Hs. bind_ok Hs. bind_ok Hs.
  destruct a1 as [below tree1]. simpl in Hs. injection Hs as _ <-.
  destruct (search_ok _ _ _ _ _ Hok E1) as [Hok1 Hg1].
  destruct (Hg1 state node Hnode) as (n1 & Hn1 & _).
  exists (Spec.visit a (- below)%Q n1), a. split.
  - rewrite lookup_alter_eq, Hn1. reflexivity.
  - rewrite count_of_visit. destruct (decide (a = a)) as [_ | Hne]; [|contradiction].
    destruct (Hok1 _ _ Hn1) as [Hlen _].
    apply select_lt in E. rewrite <- Hlen in E.
    apply lookup_lt_is_Some in E as [n ->]. lia.
Qed.

Lemma simulate_ok (tree : gmap Board Spec.Node) (root : Board)
    (tree' : gmap Board Spec.Node) :
  tree_ok gm tree ->
  Spec.simulate gm evaluate cfg sqrt tree root = Ok tree' ->
  tree_ok gm tree' /\ grows tree tree'.
Proof.
  unfold Spec.simulate. intros Hok Hs. bind_ok Hs.
  destruct a as [v t]. injection Hs as <-. eapply search_ok; eauto.
Qed.

(** A simulation from a state of the tree where the game goes on visits
    an action there. *)
Lemma simulate_visits (tree : gmap Board Spec.Node) (root : Board)
    (tree' : gmap Board Spec.Node) :
  tree_ok gm tree ->
  Spec.result gm root 1 = None ->
  is_Some (tree !! root) ->
  Spec.simulate gm evaluate cfg sqrt tree root = Ok tree' ->
  visited tree' root.
Proof.
  unfold Spec.simulate. intros Hok Hres Hin Hs. bind_ok Hs.
  destruct a as [v t]. injection Hs as <-. eapply search_visits; eauto.
Qed.

Lemma simulate_grows (tree : gmap Board Spec.Node) (root : Board)
    (tree' : gmap Board Spec.Node) :
  Spec.simulate gm evaluate cfg sqrt tree root = Ok tree' -> grows tree tree'.
Proof.
  unfold Spec.simulate. intros Hs. bind_ok Hs.
  destruct a as [v t]. injection Hs as <-. eapply search_grows; eauto.
Qed.

Lemma simulations_grows (n : nat) :
  forall tree root tree',
    Spec.simulations gm evaluate cfg sqrt n tree root = Ok tree' ->
    grows tree tree'.
Proof.
  induction n as [|n IH]; intros tree root tree' Hs; simpl in Hs.
  - injection Hs as <-. apply grows_refl.
  - bind_ok Hs. eapply grows_trans; [eapply simulate_grows | eapply IH]; eauto.
Qed.

Lemma simulations_ok (n : nat) :
  forall tree root tree',
    tree_ok gm tree ->
    Spec.simulations gm evaluate cfg sqrt n tree root = Ok tree' ->
    tree_ok gm tree' /\ grows tree tree'.
Proof.
  intros tree root tree' Hok Hs.
  split; [|eapply simulations_grows; eauto].
  revert tree Hok Hs.
  induction n as [|n IH]; intros tree Hok Hs; simpl in Hs.
  - injection Hs as <-. exact Hok.
  - bind_ok Hs. destruct (simulate_ok _ _ _ Hok E) as [Hok1 _]. eauto.
Qed.

(** One simulation or more from a root of the tree where the game goes
    on leave an action visited there. *)
Lemma simulations_visit_root (n : nat) (tree : gmap Board Spec.Node)
    (root : Board) (tree' : gmap Board Spec.Node) :
  (1 <= n)%nat ->
  tree_ok gm tree ->
  Spec.result gm root 1 = None ->
  is_Some (tree !! root) ->
  Spec.simulations gm evaluate cfg sqrt n tree root = Ok tree' ->
  visited tree' root.
Proof.
  intros Hn Hok Hres Hin Hs.
  destruct n as [|n]; [lia|]. simpl in Hs. bind_ok Hs.
  destruct (simulate_ok _ _ _ Hok E) as [Hok1 _].
  pose proof (simulate_visits _ _ _ Hok Hres Hin E) as Hvis.
  eapply grows_visited; [eapply simulations_grows|]; eauto.
Qed.


Lemma tree_ok_empty : tree_ok gm ∅.
Proof. apply map_Forall_empty. Qed.

Lemma root_counts_length (tree : gmap Board Spec.Node) (root : Board) :
  tree_ok gm tree ->
  List.length (Spec.root_counts gm tree root) = Spec.actionSize gm.
Proof.
  intros Hok. unfold Spec.root_counts.
  destruct (tree !! root) as [node|] eqn:Hnode.
  - apply (Hok _ _ Hnode).
  - apply length_replicate.
Qed.

(** Entering the root keeps the tree well formed, only adds to it, and
    leaves a root where the game goes on in the tree. *)
Lemma prepare_ok (tree : gmap Board Spec.Node) (root : Board)
    (tree0 : gmap Board Spec.Node) :
  Spec.prepare gm evaluate tree root = Ok tree0 ->
  (tree_ok gm tree -> tree_ok gm tree0) /\
  grows tree tree0 /\
  (Spec.result gm root 1 = None -> is_Some (tree0 !! root)).
Proof.
  unfold Spec.prepare. intros Hp.
  destruct (Spec.result gm root 1) as [r|].
  { injection Hp as <-. split; [auto | split; [apply grows_refl | discriminate]]. }
  destruct (tree !! root) as [node|] eqn:Hnode.
  { injection Hp as <-. split; [auto | split; [apply grows_refl | eauto]]. }
  bind_ok Hp. injection Hp as <-. split; [|split].
  - intros Hok. apply map_Forall_insert_2; [apply new_node_ok | exact Hok].
  - intros s n Hsn. exists n. split; [|intros; lia].
    rewrite lookup_insert_ne; [exact Hsn|]. intros <-. congruence.
  - intros _. rewrite lookup_insert_eq. eauto.
Qed.


(** What a decision leaves behind: a well-formed tree, counts over the
    whole action space read from it and, where the game goes on and a
    simulation was run, an action visited at the root. *)
Lemma decide_ok (n : nat) (mcts : gmap Board Spec.Node) (board : Board)
    (counts : list nat) (tree : gmap Board Spec.Node) :
  tree_ok gm mcts ->
  Spec.decide gm evaluate cfg sqrt n mcts board = Ok (counts, tree) ->
  tree_ok gm tree /\
  counts = Spec.root_counts gm tree board /\
  List.length counts = Spec.actionSize gm /\
  (Spec.result gm board 1 = None -> (1 <= n)%nat -> visited tree board).
Proof.
  unfold Spec.decide, canonicalize. rewrite board_mul_1.
  intros Hmcts Hs. bind_ok Hs. bind_ok Hs. injection Hs as <- <-.
  destruct (prepare_ok _ _ _ E) as (Hok0 & _ & Hin).
  destruct (simulations_ok _ _ _ _ (Hok0 Hmcts) E0) as [Hok _].
  split; [exact Hok | split; [reflexivity | split]].
  - apply root_counts_length. exact Hok.
  - intros Hres Hn.
    eapply simulations_visit_root;
      [exact Hn | exact (Hok0 Hmcts) | exact Hres | exact (Hin Hres) | exact E0].
Qed.

Lemma root_visits_ok (board : Board) (counts : list nat)
    (tree : gmap Board Spec.Node) :
  Spec.root_visits gm evaluate cfg sqrt board = Ok (counts, tree) ->
  tree_ok gm tree /\
  counts = Spec.root_counts gm tree board /\
  List.length counts = Spec.actionSize gm /\
  (Spec.result gm board 1 = None -> visited tree board).
Proof.
  unfold Spec.root_visits. intros Hs.
  destruct (decide_ok _ _ _ _ _ tree_ok_empty Hs) as (Hok & Hc & Hlen & Hvis).
  split; [exact Hok | split; [exact Hc | split; [exact Hlen|]]].
  intros Hres. apply Hvis; [exact Hres | lia].
Qed.



(** The most visited action, the lowest index among equals. *)
Lemma most_visited (counts : list nat) :
  counts <> [] ->
  exists best top,
    argmax Nat.ltb counts = Some best /\
    counts !! best = Some top /\
    (forall j n, counts !! j = Some n -> (n <= top)%nat) /\
    (forall j n, (j < best)%nat -> counts !! j = Some n -> (n < top)%nat).
Proof.
  intros Hne. destruct (argmax_is_Some Nat.ltb counts Hne) as [best Hbest].
  pose proof (argmax_first_max Nat.ltb nat_ltb_strict_weak _ _ Hbest)
    as (top & Htop & Hmax & Hfirst).
  exists best, top. split; [exact Hbest | split; [exact Htop | split]].
  - intros j n Hj. specialize (Hmax j n Hj). apply Nat.ltb_ge in Hmax. exact Hmax.
  - intros j n Hlt Hj. specialize (Hfirst j n Hlt Hj).
    apply Nat.ltb_lt in Hfirst. exact Hfirst.
Qed.

(** Where an action has been visited at the root of a well-formed tree,
    the most visited one is an action of the action space and legal. *)
Lemma most_visited_legal (board : Board) (counts : list nat)
    (tree : gmap Board Spec.Node) :
  tree_ok gm tree ->
  counts = Spec.root_counts gm tree board ->
  List.length counts = Spec.actionSize gm ->
  visited tree board ->
  exists best,
    argmax Nat.ltb counts = Some best /\
    (best < Spec.actionSize gm)%nat /\
    Spec.legal gm board 1 best = true.
Proof.
  intros Hok Hcounts Hlen (node & a & Hnode & Ha).
  assert (counts = Spec.visits node) as Hcn.
  { rewrite Hcounts. unfold Spec.root_counts. rewrite Hnode. reflexivity. }
  destruct (most_visited counts) as (best & top & Hbest & Htop & Hmax & _).
  { intros ->. unfold Spec.count_of in Ha. rewrite <- Hcn in Ha.
    rewrite lookup_nil in Ha. simpl in Ha. lia. }
  exists best. split; [exact Hbest | split].
  - rewrite <- Hlen. eapply lookup_lt_Some; eauto.
  - apply (Hok _ _ Hnode). unfold Spec.count_of in *. rewrite <- Hcn in *.
    rewrite Htop. simpl.
    destruct (counts !! a) as [n|] eqn:Hn; simpl in Ha; [|lia].
    specialize (Hmax a n Hn). lia.
Qed.

End SearchProps.

(** ** ai_player on the specified search engine *)

Section AiPlayer.
Variable gm : Spec.GameModel.
Variable evaluate : Board -> Res (list Q * Q).
Variable cfg : Spec.Config.
Variable sqrt : Q -> Q.
Variable rpow : Q -> Q -> Q.

Local Abbreviation engine := (Spec.engine gm evaluate cfg sqrt rpow).
Local Abbreviation reusing := (Spec.reusing_engine gm evaluate cfg sqrt rpow).

Lemma getActionProb_at_0 (mcts : gmap Board Spec.Node) (board : Board)
    (counts : list nat) (tree : gmap Board Spec.Node) (best : nat) :
  Spec.root_visits gm evaluate cfg sqrt board = Ok (counts, tree) ->
  argmax Nat.ltb counts = Some best ->
  getActionProb engine mcts board 0%Q
  = (Ok (Spec.one_hot (Spec.actionSize gm) best), tree).
Proof.
  intros Hv Hbest. simpl. unfold Spec.getActionProb. rewrite Hv.
  unfold Spec.distribution. simpl. rewrite Hbest.
  apply root_visits_ok in Hv as (_ & _ & -> & _). reflexivity.
Qed.


Lemma getActionProb_reusing_at_0 (mcts : gmap Board Spec.Node) (board : Board)
    (counts : list nat) (tree : gmap Board Spec.Node) (best : nat) :
  tree_ok gm mcts ->
  Spec.decide gm evaluate cfg sqrt (Pos.to_nat (Spec.numSimulations cfg))
    mcts board = Ok (counts, tree) ->
  argmax Nat.ltb counts = Some best ->
  getActionProb reusing mcts board 0%Q
  = (Ok (Spec.one_hot (Spec.actionSize gm) best), tree).
Proof.
  intros Hok Hv Hbest. simpl. unfold Spec.getActionProb_reusing. rewrite Hv.
  unfold Spec.distribution. simpl. rewrite Hbest.
  apply decide_ok in Hv as (_ & _ & -> & _); [reflexivity | exact Hok].
Qed.




(** The same on an engine that keeps its tree, for an instance with a
    well-formed tree; the tree the call leaves is well formed again. *)
Lemma reusing_distribution_is_legal
    (mcts : gmap Board Spec.Node) (board : Board) (pi : list Q) :
  tree_ok gm mcts ->
  Spec.result gm board 1 = None ->
  (getActionProb reusing mcts board 0%Q).1 = Ok pi ->
  tree_ok gm (getActionProb reusing mcts board 0%Q).2 /\
  List.length pi = Spec.actionSize gm /\
  (Spec.Qsum pi == 1)%Q /\
  (forall a, (a < Spec.actionSize gm)%nat ->
     Spec.legal gm board 1 a = false -> pi !! a = Some 0%Q) /\
  exists a,
    (Driver.ai_player reusing mcts board).1 = Ok (Z.of_nat a) /\
    (a < Spec.actionSize gm)%nat /\
    Spec.legal gm board 1 a = true.
Proof.
  intros Hmcts Hres Hpi.
  destruct (Spec.decide gm evaluate cfg sqrt
              (Pos.to_nat (Spec.numSimulations cfg)) mcts board)
    as [[counts tree] | e] eqn:Hv;
    [|simpl in Hpi; unfold Spec.getActionProb_reusing in Hpi; rewrite Hv in Hpi;
      discriminate Hpi].
  pose proof (decide_ok _ _ _ _ _ _ _ _ _ Hmcts Hv) as (Hok & Hcounts & Hlen & Hvis).
  assert (visited tree board) as Hvisited by (apply Hvis; [exact Hres | lia]).
  destruct (most_visited_legal _ _ _ _ Hok Hcounts Hlen Hvisited)
    as (best & Hbest & Hlt & Hlegal).
  pose proof (getActionProb_reusing_at_0 mcts _ _ _ _ Hmcts Hv Hbest) as Hone.
  rewrite Hone in Hpi |- *. injection Hpi as <-.
  split; [exact Hok|].
  split; [apply length_one_hot|].
  split; [apply Qsum_one_hot; exact Hlt|].
  split.
  - intros b Hb Hillegal. rewrite lookup_one_hot by exact Hb.
    destruct (Nat.eqb_spec b best) as [-> | _]; [congruence | reflexivity].
  - exists best. split; [|split; assumption].
    unfold Driver.ai_player. rewrite Hone. simpl.
    rewrite np_argmax_one_hot by exact Hlt. reflexivity.
Qed.

End AiPlayer.





(** Section 8, one simulation: on the empty 8x8 board one simulation
    leaves one action with count 1, the first, and every other with 0. *)
Lemma one_simulation_visits_one_action :
  exists tree,
    Spec.decide (Corner.model 8) (Corner.evaluate 8) Corner.config Corner.sqrt
      1 ∅ (Spec.initialState (Corner.model 8))
    = Ok (1%nat :: replicate 63 0%nat, tree).
Proof. eexists. vm_compute. reflexivity. Qed.

(** ** The search completes *)

Section SearchCompletes.
Variable gm : Spec.GameModel.
Variable evaluate : Board -> Res (list Q * Q).
Variable cfg : Spec.Config.
Variable sqrt : Q -> Q.
Variable rpow : Q -> Q -> Q.
Variable good : Board -> Prop.
Variable measure : Board -> nat.
Hypothesis playable : Playable gm evaluate good measure.

Local Abbreviation engine := (Spec.engine gm evaluate cfg sqrt rpow).

Lemma score_is_Some (state : Board) (node : Spec.Node) (a : nat) :
  is_Some (Spec.score gm cfg sqrt state node a) <->
  Spec.legal gm state 1 a = true.
Proof.
  unfold Spec.score. destruct (Spec.legal gm state 1 a).
  - split; [reflexivity | eauto].
  - split; [intros [x Hx]; discriminate | discriminate].
Qed.

(** Where a legal action exists, selection returns a legal one. *)
Lemma select_legal (state : Board) (node : Spec.Node) :
  (exists j, (j < Spec.actionSize gm)%nat /\ Spec.legal gm state 1 j = true) ->
  exists a,
    Spec.select gm cfg sqrt state node = Ok a /\
    Spec.legal gm state 1 a = true.
Proof.
  intros (j & Hj & Hlegal). unfold Spec.select.
  destruct (argmax_is_Some Spec.score_lt
              (Spec.score gm cfg sqrt state node <$> seq 0 (Spec.actionSize gm)))
    as [a Ha].
  { intros E. apply (f_equal List.length) in E.
    rewrite length_fmap, length_seq in E. simpl in E. lia. }
  rewrite Ha. exists a. split; [reflexivity|].
  apply argmax_first_max in Ha as (x & Hx & Hmax & _);
    [|exact score_lt_strict_weak].
  apply (score_is_Some state node).
  rewrite list_lookup_fmap in Hx.
  destruct (seq 0 (Spec.actionSize gm) !! a) as [a'|] eqn:Ea; [|discriminate].
  apply lookup_seq in Ea as [-> _]. simpl in Hx. injection Hx as ->.
  apply (score_is_Some state node) in Hlegal as [q Hq].
  specialize (Hmax j (Some q)).
  rewrite list_lookup_fmap, lookup_seq_lt in Hmax by exact Hj.
  simpl in Hmax. rewrite Hq in Hmax. specialize (Hmax eq_refl).
  destruct x as [y|]; [eauto | discriminate].
Qed.

(** States of the tree that a descent has passed, all different, cannot
    outnumber the tree. *)
Lemma path_bound (tree : gmap Board Spec.Node) (path : list Board) :
  NoDup path ->
  (forall p, p ∈ path -> is_Some (tree !! p)) ->
  (List.length path <= size tree)%nat.
Proof.
  intros Hnd Hin.
  rewrite <- (size_list_to_set (C := gset Board) path) by exact Hnd.
  rewrite <- (size_dom (D := gset Board) tree).
  apply subseteq_size. intros p Hp.
  apply elem_of_list_to_set in Hp. apply elem_of_dom. auto.
Qed.

(** A descent whose depth budget exceeds the number of tree states it has
    not yet passed reaches a leaf. *)
Lemma search_total (fuel : nat) :
  forall tree state path,
    good state ->
    NoDup path ->
    (forall p, p ∈ path ->
       is_Some (tree !! p) /\ (measure state < measure p)%nat) ->
    (size tree < List.length path + fuel)%nat ->
    exists r, Spec.search gm evaluate cfg sqrt fuel tree state = Ok r.
Proof.
  induction fuel as [|fuel IH]; intros tree state path Hgood Hnd Hpath Hfuel.
  { pose proof (path_bound tree path Hnd (fun p Hp => proj1 (Hpath p Hp))). lia. }
  simpl. destruct (Spec.result gm state 1) as [r|] eqn:Hres; [eauto|].
  destruct (tree !! state) as [node|] eqn:Hnode.
  - destruct (select_legal state node
                (ongoing_has_move _ _ _ _ playable _ Hgood Hres))
      as (a & -> & Hlegal).
    simpl. unfold Spec.applyMove. rewrite Hlegal. simpl.
    destruct (move_makes_progress _ _ _ _ playable state a Hgood Hres Hlegal)
      as [Hnext Hlt].
    destruct (IH tree
                (canonicalize (Spec.transition gm state 1 a).1
                              (Spec.transition gm state 1 a).2)
                (state :: path)) as [below ->].
    + exact Hnext.
    + apply NoDup_cons. split; [|exact Hnd].
      intros Hin. destruct (Hpath _ Hin) as [_ Hm]. lia.
    + intros p Hp. apply elem_of_cons in Hp as [-> | Hp].
      * split; [rewrite Hnode; eauto | exact Hlt].
      * destruct (Hpath _ Hp) as [Hin Hm]. split; [exact Hin | lia].
    + simpl. lia.
    + simpl. eauto.
  - destruct (evaluator_answers _ _ _ _ playable state Hgood) as [pv ->].
    simpl. eauto.
Qed.

Lemma prepare_total (tree : gmap Board Spec.Node) (root : Board) :
  good root ->
  exists tree0, Spec.prepare gm evaluate tree root = Ok tree0.
Proof.
  intros Hgood. unfold Spec.prepare.
  destruct (Spec.result gm root 1); [eauto|].
  destruct (tree !! root); [eauto|].
  destruct (evaluator_answers _ _ _ _ playable root Hgood) as [pv ->].
  simpl. eauto.
Qed.

Lemma simulations_total (n : nat) :
  forall tree root,
    good root ->
    exists tree', Spec.simulations gm evaluate cfg sqrt n tree root = Ok tree'.
Proof.
  induction n as [|n IH]; intros tree root Hgood; simpl; [eauto|].
  unfold Spec.simulate.
  destruct (search_total (S (size tree)) tree root []) as [r ->].
  - exact Hgood.
  - constructor.
  - intros p Hp. inversion Hp.
  - simpl. lia.
  - simpl. apply IH. exact Hgood.
Qed.

(** On a playable game with a board of positive size every decision on
    a good state completes: the simulations raise nothing and [ai_player]
    returns an action. *)
Lemma ai_player_returns (mcts : gmap Board Spec.Node) (board : Board) :
  good board ->
  (0 < Spec.boardSize gm)%nat ->
  (exists counts tree,
     Spec.root_visits gm evaluate cfg sqrt board = Ok (counts, tree)) /\
  exists a, (Driver.ai_player engine mcts board).1 = Ok (Z.of_nat a).
Proof.
  intros Hgood Hsize.
  assert (exists counts tree,
            Spec.root_visits gm evaluate cfg sqrt board = Ok (counts, tree))
    as (counts & tree & Hv).
  { unfold Spec.root_visits, Spec.decide, canonicalize. rewrite board_mul_1.
    destruct (prepare_total ∅ board Hgood) as [tree0 ->]. simpl.
    destruct (simulations_total (Pos.to_nat (Spec.numSimulations cfg))
                tree0 board Hgood) as [tree ->].
    simpl. eauto. }
  split; [eauto|].
  pose proof (root_visits_ok _ _ _ _ _ _ _ Hv) as (_ & _ & Hlen & _).
  destruct (most_visited counts) as (best & top & Hbest & Htop & _).
  { intros ->. simpl in Hlen. unfold Spec.actionSize in Hlen. nia. }
  exists best. unfold Driver.ai_player.
  rewrite (getActionProb_at_0 gm evaluate cfg sqrt rpow mcts _ _ _ _ Hv Hbest).
  simpl. rewrite np_argmax_one_hot; [reflexivity|].
  rewrite <- Hlen. eapply lookup_lt_Some; eauto.
Qed.

End SearchCompletes.

(** ** The corner game is playable *)

Section CornerPlayable.
Variable n : nat.
Hypothesis n_positive : (0 < n)%nat.

Lemma concat_rows_length (board : Board) :
  Forall (fun row : list Z => List.length row = n) board ->
  List.length (concat board) = (List.length board * n)%nat.
Proof.
  induction 1 as [|row board Hrow _ IH]; simpl; [reflexivity|].
  rewrite length_app, IH, Hrow. reflexivity.
Qed.

(** Placing on the grid is writing into the row-major list of cells. *)
Lemma concat_place (board : Board) (a : nat) (v : Z) :
  Forall (fun row : list Z => List.length row = n) board ->
  concat (Corner.place n board a v) = <[a := v]> (concat board).
Proof.
  intros Hrows. revert a. unfold Corner.place.
  induction Hrows as [|row board Hrow _ IH]; intros a.
  - destruct (a / n)%nat; reflexivity.
  - destruct (Nat.lt_ge_cases a n) as [Hlt | Hge].
    + rewrite (Nat.div_small a n Hlt), (Nat.mod_small a n Hlt).
      cbn -[Nat.div Nat.modulo].
      rewrite insert_app_l by lia. reflexivity.
    + assert (a / n = S ((a - n) / n))%nat as Hdiv.
      { replace a with ((a - n) + 1 * n)%nat at 1 by lia.
        rewrite Nat.div_add by lia. lia. }
      assert (a mod n = (a - n) mod n)%nat as Hmod.
      { replace a with ((a - n) + 1 * n)%nat at 1 by lia.
        apply Nat.Div0.mod_add. }
      rewrite Hdiv, Hmod. cbn -[Nat.div Nat.modulo]. rewrite (IH (a - n)%nat).
      replace a with (List.length row + (a - n))%nat at 2 by lia.
      rewrite insert_app_r. reflexivity.
Qed.

Lemma zeros_insert (l : list Z) (a : nat) (v : Z) :
  l !! a = Some 0 -> v <> 0 -> S (Corner.zeros (<[a := v]> l)) = Corner.zeros l.
Proof.
  revert a. induction l as [|x l IH]; intros [|a] Ha Hv; simpl in *;
    try discriminate.
  - injection Ha as ->. simpl. destruct (Z.eqb_spec v 0); [contradiction | reflexivity].
  - destruct (x =? 0); rewrite <- (IH a Ha Hv); reflexivity.
Qed.

Lemma zeros_opp (l : list Z) :
  Corner.zeros (map (fun x => x * -1) l) = Corner.zeros l.
Proof.
  induction l as [|x l IH]; simpl; [reflexivity|]. rewrite IH.
  destruct (Z.eqb_spec x 0), (Z.eqb_spec (x * -1) 0); try reflexivity; lia.
Qed.

Lemma concat_board_mul (board : Board) (player : Z) :
  concat (board_mul board player) = map (fun x => x * player) (concat board).
Proof.
  unfold board_mul. induction board as [|row board IH]; simpl; [reflexivity|].
  rewrite map_app, IH. reflexivity.
Qed.

Lemma square_board_mul (board : Board) (player : Z) :
  Corner.square n board -> Corner.square n (board_mul board player).
Proof.
  unfold Corner.square, board_mul. intros [Hlen Hrows].
  split; [rewrite length_map; exact Hlen|].
  apply Forall_map. eapply Forall_impl; [exact Hrows|].
  intros row Hrow. simpl. rewrite length_map. exact Hrow.
Qed.

Lemma square_place (board : Board) (a : nat) (v : Z) :
  Corner.square n board -> Corner.square n (Corner.place n board a v).
Proof.
  unfold Corner.square, Corner.place, Board in *. intros [Hlen Hrows].
  split; [rewrite length_alter; exact Hlen|].
  apply Forall_lookup. intros i row Hi.
  destruct (decide ((a / n)%nat = i)) as [<- | Hne].
  - rewrite list_lookup_alter_eq in Hi.
    destruct (board !! (a / n)%nat) as [row0|] eqn:Hrow0;
      simpl in Hi; [|discriminate].
    injection Hi as <-. rewrite length_insert.
    exact (proj1 (Forall_lookup _ _) Hrows _ _ Hrow0).
  - rewrite list_lookup_alter_ne in Hi by exact Hne.
    exact (proj1 (Forall_lookup _ _) Hrows _ _ Hi).
Qed.

Lemma corner_legal (board : Board) (a : nat) :
  Spec.legal (Corner.model n) board 1 a = true <-> concat board !! a = Some 0.
Proof.
  unfold Spec.legal, Corner.model, Corner.cells; simpl.
  change (map (fun x => x =? 0) (concat board))
    with ((fun x => x =? 0) <$> concat board).
  rewrite list_lookup_fmap.
  destruct (concat board !! a) as [x|]; simpl.
  - rewrite Z.eqb_eq. split; [intros ->; reflexivity | intros [= ->]; reflexivity].
  - split; discriminate.
Qed.

(** On square boards the corner game never leaves the search without an
    answer: the number of free cells goes down with every move. *)
Lemma corner_playable :
  Playable (Corner.model n) (Corner.evaluate n)
           (Corner.square n) (Corner.free_cells n).
Proof.
  split.
  - intros state _. unfold Corner.evaluate. eauto.
  - intros state [Hlen Hrows] Hres.
    pose proof (concat_rows_length state Hrows) as Hcells. rewrite Hlen in Hcells.
    exists (pred (n * n)). split.
    { unfold Spec.actionSize. simpl. nia. }
    apply corner_legal.
    unfold Spec.result, Corner.model, Corner.cells in Hres; simpl in Hres.
    rewrite last_lookup, Hcells in Hres.
    destruct (concat state !! pred (n * n)) as [x|] eqn:Hx.
    + destruct (Z.eqb_spec x 0) as [-> | _]; [reflexivity | discriminate].
    + apply lookup_ge_None in Hx. nia.
  - intros state a [Hlen Hrows] _ Hlegal. simpl.
    apply corner_legal in Hlegal. split.
    + unfold canonicalize. apply square_board_mul, square_place.
      split; assumption.
    + unfold Corner.free_cells, Corner.cells, canonicalize.
      rewrite concat_board_mul, zeros_opp, concat_place by exact Hrows.
      rewrite <- (zeros_insert (concat state) a 1 Hlegal); lia.
Qed.

End CornerPlayable.

(** On the 8x8 corner game [ai_player] answers on every square board. *)
Lemma corner_ai_player_returns (mcts : gmap Board Spec.Node) (board : Board) :
  Corner.square 8 board ->
  exists a, (Driver.ai_player (Corner.engine 8) mcts board).1 = Ok (Z.of_nat a).
Proof.
  intros Hsq.
  apply (ai_player_returns (Corner.model 8) (Corner.evaluate 8) Corner.config
           Corner.sqrt Corner.rpow (Corner.square 8) (Corner.free_cells 8)
           (corner_playable 8 ltac:(lia)) mcts board Hsq).
  simpl. lia.
Qed.

(** * Further properties of the driver *)

(** ** dotdict: deleting, overwriting, names of the type *)

(** X1. [del d.k] removes the key [k] and nothing else, after which
    reading [d[k]] raises [KeyError]; on a name that is not a key it
    raises [KeyError] itself. *)
Theorem delattr_removes_the_key (V : Type) (d : gmap string V) (k : string) :
  (forall v, d !! k = Some v ->
     exists d',
       Dotdict.__delattr__ d k = Ok d' /\
       Dotdict.getitem d' k = Raise (KeyError k) /\
       forall j, j <> k -> Dotdict.getitem d' j = Dotdict.getitem d j) /\
  (d !! k = None -> Dotdict.__delattr__ d k = Raise (KeyError k)).
Proof.
  unfold Dotdict.__delattr__, Dotdict.getitem. split.
  - intros v Hk. rewrite Hk. exists (delete k d).
    split; [reflexivity|]. rewrite lookup_delete_eq. split; [reflexivity|].
    intros j Hj. rewrite lookup_delete_ne by congruence. reflexivity.
  - intros Hk. rewrite Hk. reflexivity.
Qed.

Lemma delattr_removes_the_key_witness :
  (exists d',
     Dotdict.__delattr__ args "cpuct" = Ok d' /\
     Dotdict.getitem d' "cpuct" = Raise (KeyError "cpuct") /\
     forall j, j <> "cpuct"%string -> Dotdict.getitem d' j = Dotdict.getitem args j) /\
  Dotdict.__delattr__ args "temp" = Raise (KeyError "temp").
Proof.
  split.
  - apply (proj1 (delattr_removes_the_key Q args "cpuct") 1%Q). reflexivity.
  - apply (proj2 (delattr_removes_the_key Q args "temp")). reflexivity.
Defined.

(** X2. [d.k = v] changes the entry of [k] only, the last assignment to a
    name is the one that counts, and assigning a new name and deleting it
    again gives back the dictionary as it was. *)
Theorem setattr_overwrites_one_key (V : Type) (d : gmap string V)
    (k : string) (v w : V) :
  (forall j, j <> k ->
     Dotdict.getitem (Dotdict.setattr d k v) j = Dotdict.getitem d j) /\
  Dotdict.setattr (Dotdict.setattr d k v) k w = Dotdict.setattr d k w /\
  (d !! k = None ->
     Dotdict.__delattr__ (Dotdict.setattr d k v) k = Ok d).
Proof.
  unfold Dotdict.setattr, Dotdict.__setattr__, Dotdict.__delattr__,
    Dotdict.getitem.
  split; [|split].
  - intros j Hj. rewrite lookup_insert_ne by congruence. reflexivity.
  - apply insert_insert_eq.
  - intros Hk. rewrite lookup_insert_eq, delete_insert_id by exact Hk.
    reflexivity.
Qed.

Lemma setattr_overwrites_one_key_witness :
  Dotdict.getitem (Dotdict.setattr args "temp" 0%Q) "cpuct" = Ok 1%Q /\
  Dotdict.__delattr__ (Dotdict.setattr args "temp" 0%Q) "temp" = Ok args.
Proof.
  destruct (setattr_overwrites_one_key Q args "temp" 0%Q 0%Q) as (Hframe & _ & Hdel).
  split.
  - rewrite Hframe by discriminate. reflexivity.
  - apply Hdel. reflexivity.
Defined.

(** X3. A name the type provides stays out of reach of attribute reads:
    [d.k = v] does store [v] under the key [k], but [d.k] goes on giving
    what the type has under that name, whatever the dictionary holds, and
    [hasattr] says yes. *)
Theorem type_names_shadow_keys (V : Type) (d : gmap string V)
    (k : string) (v : V) :
  Dotdict.on_type k = true ->
  Dotdict.getitem (Dotdict.setattr d k v) k = Ok v /\
  Dotdict.getattr (Dotdict.setattr d k v) k = Ok (Dotdict.TypeAttr k) /\
  Dotdict.getattr d k = Ok (Dotdict.TypeAttr k) /\
  Dotdict.hasattr d k = Ok true.
Proof.
  intros Ht.
  unfold Dotdict.hasattr, Dotdict.getattr, Dotdict.setattr,
    Dotdict.__setattr__, Dotdict.getitem.
  rewrite Ht, lookup_insert_eq. repeat split.
Qed.

Lemma type_names_shadow_keys_witness :
  Dotdict.getitem (Dotdict.setattr args "update" 3%Q) "update" = Ok 3%Q /\
  Dotdict.getattr (Dotdict.setattr args "update" 3%Q) "update"
    = Ok (Dotdict.TypeAttr "update") /\
  Dotdict.getattr args "update" = Ok (Dotdict.TypeAttr "update") /\
  Dotdict.hasattr args "update" = Ok true.
Proof.
  apply (type_names_shadow_keys Q args "update" 3%Q). reflexivity.
Defined.

(** X4. [hasattr] on a dotdict never answers [False]: it answers [True]
    exactly for the names of the type and the keys of the dictionary, and
    raises [KeyError] for every other name. *)
Theorem hasattr_never_false (V : Type) (d : gmap string V) (k : string) :
  Dotdict.hasattr d k <> Ok false /\
  (Dotdict.hasattr d k = Ok true <->
     Dotdict.on_type k = true \/ is_Some (d !! k)) /\
  (Dotdict.hasattr d k = Raise (KeyError k) <->
     Dotdict.on_type k = false /\ d !! k = None).
Proof.
  unfold Dotdict.hasattr, Dotdict.getattr, Dotdict.__getattr__, Dotdict.getitem.
  destruct (Dotdict.on_type k); simpl.
  - split; [discriminate|]. split.
    + split; [auto | reflexivity].
    + split; [discriminate | intros [? _]; discriminate].
  - destruct (d !! k) as [v|]; simpl.
    + split; [discriminate|]. split.
      * split; [eauto | reflexivity].
      * split; [discriminate | intros [_ ?]; discriminate].
    + split; [discriminate|]. split.
      * split; [discriminate | intros [? | [? ?]]; discriminate].
      * split; [auto | reflexivity].
Qed.

(** ** display: what the picture tells *)

Lemma symbol_of_class (x : Z) : Display.symbol x = class_symbol (cell_class x).
Proof.
  unfold Display.symbol, cell_class.
  destruct (x =? 0); [reflexivity|].
  destruct (x =? 1); [reflexivity|].
  destruct (x =? -1); [reflexivity|].
  destruct (Display.py_in x [2; 3; 4; 5]) eqn:E3.
  { apply py_in_spec in E3. rewrite !elem_of_cons, elem_of_nil in E3.
    replace ((2 <=? x) && (x <=? 5)) with true; [reflexivity|].
    symmetry. apply andb_true_iff. split; [apply Z.leb_le | apply Z.leb_le]; lia. }
  replace ((2 <=? x) && (x <=? 5)) with false.
  2:{ symmetry. apply not_true_iff_false. intros H.
      apply andb_true_iff in H as [H2 H5].
      apply Z.leb_le in H2, H5.
      apply not_true_iff_false in E3. apply E3, py_in_spec.
      rewrite !elem_of_cons. lia. }
  destruct (Display.py_in x [-2; -3; -4; -5]) eqn:E4.
  { apply py_in_spec in E4. rewrite !elem_of_cons, elem_of_nil in E4.
    replace ((-5 <=? x) && (x <=? -2)) with true; [reflexivity|].
    symmetry. apply andb_true_iff. split; [apply Z.leb_le | apply Z.leb_le]; lia. }
  replace ((-5 <=? x) && (x <=? -2)) with false; [reflexivity|].
  symmetry. apply not_true_iff_false. intros H.
  apply andb_true_iff in H as [H5 H2].
  apply Z.leb_le in H2, H5.
  apply not_true_iff_false in E4. apply E4, py_in_spec.
  rewrite !elem_of_cons. lia.
Qed.

Lemma class_symbol_inj (c1 c2 : CellClass) :
  class_symbol c1 = class_symbol c2 -> c1 = c2.
Proof.
  destruct c1, c2;
    unfold class_symbol, Display.white_ion, Display.black_ion,
      Display.white_node, Display.black_node;
    intros H; try reflexivity; discriminate H.
Qed.

(** X5. The six symbols are pairwise different, so the symbol of a cell
    tells its class and nothing more: two cell values print alike exactly
    when both are 0, both +1, both -1, both in 2..5, both in -5..-2, or
    both none of these. *)
Theorem symbol_tells_the_class (x y : Z) :
  Display.symbol x = Display.symbol y <-> cell_class x = cell_class y.
Proof.
  rewrite !symbol_of_class. split.
  - apply class_symbol_inj.
  - intros ->. reflexivity.
Qed.

(** X6. [display] prints one line per row of the board and then one empty
    line; for a board without rows the empty line is all it prints. *)
Theorem display_line_count (board : Board) :
  List.length (Display.display board) = S (List.length board) /\
  last (Display.display board) = Some ""%string /\
  Display.display [] = [""%string].
Proof.
  unfold Display.display. split; [|split].
  - rewrite length_app, length_map. simpl. lia.
  - apply last_snoc.
  - reflexivity.
Qed.

(** A symbol followed by nothing or by a blank and more: the symbol can be
    read back off the front. *)
Lemma symbol_prefix_inj (c1 c2 : CellClass) (t1 t2 : string) :
  (t1 = ""%string \/ exists u, t1 = (" " +:+ u)%string) ->
  (t2 = ""%string \/ exists u, t2 = (" " +:+ u)%string) ->
  (class_symbol c1 +:+ t1 = class_symbol c2 +:+ t2)%string ->
  c1 = c2 /\ t1 = t2.
Proof.
  intros [-> | [u1 ->]] [-> | [u2 ->]];
    destruct c1, c2;
    unfold class_symbol, Display.white_ion, Display.black_ion,
      Display.white_node, Display.black_node;
    intros H; try discriminate H;
    (split; [reflexivity|]); try reflexivity;
    unfold String.app in *; simpl in *; congruence.
Qed.

Lemma join_symbols_shape (c : CellClass) (l : list CellClass) :
  exists t,
    (t = ""%string \/ exists u, t = (" " +:+ u)%string) /\
    Display.join " " (map class_symbol (c :: l)) = (class_symbol c +:+ t)%string /\
    (l = [] -> t = ""%string) /\
    (forall d l', l = d :: l' ->
       t = (" " +:+ Display.join " " (map class_symbol l))%string).
Proof.
  destruct l as [|d l'].
  - exists ""%string. simpl. repeat split; auto.
    + destruct c; reflexivity.
    + intros d l' H. discriminate H.
  - exists (" " +:+ Display.join " " (map class_symbol (d :: l')))%string.
    split; [eauto|]. split; [reflexivity|]. split; [discriminate|].
    intros d0 l0 [= <- <-]. reflexivity.
Qed.

Lemma join_symbols_inj (l1 : list CellClass) :
  forall l2,
    Display.join " " (map class_symbol l1) = Display.join " " (map class_symbol l2) ->
    l1 = l2.
Proof.
  induction l1 as [|c1 l1 IH]; intros [|c2 l2] H.
  - reflexivity.
  - destruct (join_symbols_shape c2 l2) as (t & _ & Ht & _).
    rewrite Ht in H. destruct c2; discriminate H.
  - destruct (join_symbols_shape c1 l1) as (t & _ & Ht & _).
    rewrite Ht in H. destruct c1; discriminate H.
  - destruct (join_symbols_shape c1 l1) as (t1 & Hs1 & Ht1 & He1 & Hc1).
    destruct (join_symbols_shape c2 l2) as (t2 & Hs2 & Ht2 & He2 & Hc2).
    rewrite Ht1, Ht2 in H.
    destruct (symbol_prefix_inj c1 c2 t1 t2 Hs1 Hs2 H) as [-> Ht].
    f_equal. destruct l1 as [|d1 l1'], l2 as [|d2 l2'].
    + reflexivity.
    + rewrite (He1 eq_refl), (Hc2 _ _ eq_refl) in Ht. discriminate Ht.
    + rewrite (He2 eq_refl), (Hc1 _ _ eq_refl) in Ht. discriminate Ht.
    + rewrite (Hc1 _ _ eq_refl), (Hc2 _ _ eq_refl) in Ht.
      apply IH. injection Ht as Ht. exact Ht.
Qed.

Lemma row_line (row : list Z) :
  Display.join " " (map Display.symbol row)
  = Display.join " " (map class_symbol (map cell_class row)).
Proof.
  f_equal. rewrite map_map. apply map_ext. intros x. apply symbol_of_class.
Qed.

(** X7. The picture determines the board up to the class of each cell:
    two boards print the same lines exactly when they have the same shape
    and their cells agree in class. *)
Theorem display_tells_the_classes (board1 board2 : Board) :
  Display.display board1 = Display.display board2 <->
  map (map cell_class) board1 = map (map cell_class) board2.
Proof.
  unfold Display.display. split.
  - intros H. apply app_inv_tail in H.
    revert board2 H. induction board1 as [|row1 board1 IH];
      intros [|row2 board2] H; simpl in H; try discriminate H; [reflexivity|].
    injection H as Hrow Hrest. simpl. f_equal; [|apply IH; exact Hrest].
    rewrite !row_line in Hrow. apply join_symbols_inj. exact Hrow.
  - intros H. f_equal.
    revert board2 H. induction board1 as [|row1 board1 IH];
      intros [|row2 board2] H; simpl in H; try discriminate H; [reflexivity|].
    injection H as Hrow Hrest. simpl. f_equal; [|apply IH; exact Hrest].
    rewrite !row_line, Hrow. reflexivity.
Qed.

Lemma cell_class_opp (x : Z) : cell_class (- x) = other_colour (cell_class x).
Proof.
  unfold cell_class.
  destruct (Z.eqb_spec x 0) as [-> | H0]; [reflexivity|].
  destruct (Z.eqb_spec (- x) 0); [lia|].
  destruct (Z.eqb_spec x 1) as [-> | H1]; [reflexivity|].
  destruct (Z.eqb_spec x (-1)) as [-> | Hm1]; [reflexivity|].
  destruct (Z.eqb_spec (- x) 1); [lia|].
  destruct (Z.eqb_spec (- x) (-1)); [lia|].
  destruct (Z.leb_spec 2 x), (Z.leb_spec x 5), (Z.leb_spec (-5) x),
    (Z.leb_spec x (-2)), (Z.leb_spec 2 (- x)), (Z.leb_spec (- x) 5),
    (Z.leb_spec (-5) (- x)), (Z.leb_spec (- x) (-2));
    simpl; try reflexivity; lia.
Qed.

(** X8. On the board the AI is given, [board * player] with player -1,
    every piece shows in the other colour: white and black ions swap,
    white and black nodes swap, empty cells and unknown values stay what
    they are. *)
Theorem negated_board_swaps_colours (board : Board) :
  map (map cell_class) (board_mul board (-1))
    = map (map (fun x => other_colour (cell_class x))) board /\
  forall x, Display.symbol (x * -1)
            = class_symbol (other_colour (cell_class x)).
Proof.
  split.
  - unfold board_mul. rewrite map_map. apply map_ext. intros row.
    rewrite map_map. apply map_ext. intros x.
    replace (x * -1) with (- x) by lia. apply cell_class_opp.
  - intros x. rewrite symbol_of_class.
    replace (x * -1) with (- x) by lia. rewrite cell_class_opp. reflexivity.
Qed.

(** ** Canonical boards, once more *)

(** X9. Multiplying a board by a player sign keeps its shape and composes
    like multiplication: doing it for [p] and then for [q] is doing it
    for [p * q], so the board handed to the AI turns back into the board
    of the game when negated again. *)
Theorem board_mul_composes (board : Board) (p q : Z) :
  board_mul (board_mul board p) q = board_mul board (p * q) /\
  board_mul (board_mul board (-1)) (-1) = board /\
  map (@List.length Z) (board_mul board p) = map (@List.length Z) board.
Proof.
  assert (forall b p q, board_mul (board_mul b p) q = board_mul b (p * q)) as Hcomp.
  { intros b p0 q0. unfold board_mul. rewrite map_map. apply map_ext. intros row.
    rewrite map_map. apply map_ext. intros x. lia. }
  split; [apply Hcomp | split].
  - rewrite Hcomp. apply board_mul_1.
  - unfold board_mul. rewrite map_map. apply map_ext. intros row.
    apply length_map.
Qed.

(** ** ai_player on any search object *)

Lemma first_max_Q (pi : list Q) (a : nat) :
  first_max Qlt_bool pi a ->
  exists top,
    pi !! a = Some top /\
    (forall j y, pi !! j = Some y -> (y <= top)%Q) /\
    (forall j y, (j < a)%nat -> pi !! j = Some y -> (y < top)%Q).
Proof.
  intros (top & Htop & Hmax & Hfirst). exists top.
  split; [exact Htop | split].
  - intros j y Hj. specialize (Hmax j y Hj).
    apply Qnot_lt_le. intros Hlt. apply Qlt_bool_iff in Hlt. congruence.
  - intros j y Hlt Hj. apply Qlt_bool_iff. eauto.
Qed.

(** X10. Whatever the search object is, [ai_player] leaves it as
    [getActionProb] left it, passes on what [getActionProb] raised, and
    raises [ValueError] on an empty vector. On a vector of numbers that
    float64 holds exactly it returns the position of the first largest
    entry: no entry is larger, and every entry before it is smaller. *)
Theorem ai_player_picks_first_maximum
    (engine : SearchEngine) (mcts : Mcts engine) (board : Board) :
  (Driver.ai_player engine mcts board).2
    = (getActionProb engine mcts board 0%Q).2 /\
  (forall e, (getActionProb engine mcts board 0%Q).1 = Raise e ->
     (Driver.ai_player engine mcts board).1 = Raise e) /\
  ((getActionProb engine mcts board 0%Q).1 = Ok [] ->
     (Driver.ai_player engine mcts board).1 = Raise ValueError) /\
  (forall pi, (getActionProb engine mcts board 0%Q).1 = Ok pi -> pi <> [] ->
     Forall float64_exact pi ->
     exists a top,
       (Driver.ai_player engine mcts board).1 = Ok (Z.of_nat a) /\
       pi !! a = Some top /\
       (forall j y, pi !! j = Some y -> (y <= top)%Q) /\
       (forall j y, (j < a)%nat -> pi !! j = Some y -> (y < top)%Q)).
Proof.
  unfold Driver.ai_player.
  destruct (getActionProb engine mcts board 0%Q) as [r mcts']; simpl.
  split; [reflexivity|]. split; [|split].
  - intros e ->. reflexivity.
  - intros ->. reflexivity.
  - intros pi -> Hne _. simpl. unfold np_argmax.
    destruct (argmax_is_Some Qlt_bool pi Hne) as [a Ha]. rewrite Ha. simpl.
    apply argmax_first_max in Ha; [|exact Qlt_bool_strict_weak].
    destruct (first_max_Q pi a Ha) as (top & Htop & Hmax & Hfirst).
    exists a, top. auto.
Qed.

Lemma ai_player_picks_first_maximum_witness :
  exists a top,
    (Driver.ai_player (fixed_engine [1 # 4; 1 # 2; 1 # 2; 1 # 8]%Q) tt []).1
      = Ok (Z.of_nat a) /\
    [1 # 4; 1 # 2; 1 # 2; 1 # 8]%Q !! a = Some top /\
    (forall j y, [1 # 4; 1 # 2; 1 # 2; 1 # 8]%Q !! j = Some y -> (y <= top)%Q) /\
    (forall j y, (j < a)%nat ->
       [1 # 4; 1 # 2; 1 # 2; 1 # 8]%Q !! j = Some y -> (y < top)%Q).
Proof.
  apply (proj2 (proj2 (proj2 (ai_player_picks_first_maximum
           (fixed_engine [1 # 4; 1 # 2; 1 # 2; 1 # 8]%Q) tt [])))).
  - reflexivity.
  - discriminate.
  - repeat constructor;
      [exists 1, (-2) | exists 1, (-1) | exists 1, (-1) | exists 1, (-3)];
      (split; [reflexivity | split; [lia | reflexivity]]).
Defined.

(** ** human_player: what it prints, when it returns, when it does not *)

Section HumanPlayerMore.
Variable g : Game.
Variable int : string -> option Z.

Lemma valid_indices_ge (valid : list Z) :
  forall start a, a ∈ Driver.valid_indices start valid -> (start <= a)%nat.
Proof.
  induction valid as [|v valid IH]; intros start a Ha; simpl in Ha.
  - inversion Ha.
  - destruct (truthy v).
    + apply elem_of_cons in Ha as [-> | Ha]; [lia|].
      specialize (IH _ _ Ha). lia.
    + specialize (IH _ _ Ha). lia.
Qed.

Lemma valid_indices_elem (valid : list Z) :
  forall start a,
    a ∈ Driver.valid_indices start valid <->
    (start <= a)%nat /\
    exists v, valid !! (a - start)%nat = Some v /\ truthy v = true.
Proof.
  induction valid as [|v valid IH]; intros start a; simpl.
  - split; [intros H; inversion H | intros (_ & w & Hw & _); discriminate].
  - assert (a ∈ Driver.valid_indices (S start) valid <->
            (start < a)%nat /\
            exists w, (v :: valid) !! (a - start)%nat = Some w /\ truthy w = true)
      as Htail.
    { rewrite IH. split.
      - intros (Hle & w & Hw & Ht). split; [lia|]. exists w. split; [|exact Ht].
        replace (a - start)%nat with (S (a - S start)) by lia. exact Hw.
      - intros (Hlt & w & Hw & Ht). split; [lia|]. exists w. split; [|exact Ht].
        replace (a - start)%nat with (S (a - S start)) in Hw by lia. exact Hw. }
    destruct (truthy v) eqn:Hv.
    + rewrite elem_of_cons, Htail. split.
      * intros [-> | (Hlt & w & Hw & Ht)].
        -- split; [lia|]. exists v. rewrite Nat.sub_diag. auto.
        -- split; [lia | eauto].
      * intros (Hle & w & Hw & Ht).
        destruct (decide (a = start)) as [-> | Hne]; [left; reflexivity|].
        right. split; [lia | eauto].
    + rewrite Htail. split.
      * intros (Hlt & w & Hw & Ht). split; [lia | eauto].
      * intros (Hle & w & Hw & Ht).
        destruct (decide (a = start)) as [-> | Hne].
        -- rewrite Nat.sub_diag in Hw. injection Hw as <-. congruence.
        -- split; [lia | eauto].
Qed.

Lemma valid_indices_increasing (valid : list Z) :
  forall start i j a b,
    Driver.valid_indices start valid !! i = Some a ->
    Driver.valid_indices start valid !! j = Some b ->
    (i < j)%nat -> (a < b)%nat.
Proof.
  induction valid as [|v valid IH]; intros start i j a b Hi Hj Hlt; simpl in *.
  - rewrite lookup_nil in Hi. discriminate.
  - destruct (truthy v); [|eauto].
    destruct i as [|i], j as [|j]; try lia; simpl in *.
    + injection Hi as <-.
      apply list_elem_of_lookup_2 in Hj. apply valid_indices_ge in Hj. lia.
    + apply (IH (S start) i j); auto. lia.
Qed.

(** X11. The list of valid moves that [human_player] prints holds exactly
    the positions of [valid] with a truthy entry, each once, in
    increasing order. *)
Theorem printed_moves_are_the_valid_ones (valid : list Z) :
  (forall a, a ∈ Driver.valid_indices 0 valid <->
             exists v, valid !! a = Some v /\ truthy v = true) /\
  (forall i j a b,
     Driver.valid_indices 0 valid !! i = Some a ->
     Driver.valid_indices 0 valid !! j = Some b ->
     (i < j)%nat -> (a < b)%nat).
Proof.
  split.
  - intros a. rewrite valid_indices_elem, Nat.sub_0_r. split.
    + intros [_ H]. exact H.
    + intros H. split; [lia | exact H].
  - apply valid_indices_increasing.
Qed.

(** What [ask] did when it handed back a move. *)
Lemma ask_Some (valid : list Z) (inputs : list string) :
  forall out move rest,
    Driver.ask int valid inputs = (out, Some (move, rest)) ->
    exists before line complaints,
      inputs = before ++ line :: rest /\
      Driver.attempt int valid line = Driver.Accept move /\
      Forall (fun l => ~ valid_entry int valid l) before /\
      List.length complaints = List.length before /\
      out = reprompts complaints ++ [Prompt "Enter your move (0-63): "].
Proof.
  induction inputs as [|l inputs IH]; intros out move rest H; simpl in H.
  - discriminate.
  - destruct (Driver.attempt int valid l) as [m | c] eqn:Ha.
    + injection H as <- <- <-. exists [], l, []. repeat split; auto.
    + destruct (Driver.ask int valid inputs) as [out0 r0] eqn:E.
      injection H as <- ->.
      destruct (IH _ _ _ eq_refl) as (before & line & cs & -> & Hacc & Hb & Hlen & ->).
      exists (l :: before), line, (c :: cs). repeat split; simpl; auto.
      constructor; [|exact Hb].
      rewrite attempt_accept_valid. intros [m Hm]. congruence.
Qed.

(** What [ask] did when no line names a legal move. *)
Lemma ask_None (valid : list Z) (inputs : list string) :
  Forall (fun l => ~ valid_entry int valid l) inputs ->
  exists complaints,
    List.length complaints = List.length inputs /\
    Forall is_complaint complaints /\
    Driver.ask int valid inputs
      = (reprompts complaints ++ [Prompt "Enter your move (0-63): "], None).
Proof.
  induction 1 as [|l inputs Hl _ IH]; simpl.
  - exists []. repeat split; auto.
  - destruct (Driver.attempt int valid l) as [m | c] eqn:Ha.
    + exfalso. apply Hl. apply attempt_accept_valid. eauto.
    + destruct IH as (cs & Hlen & Hcs & ->).
      exists (c :: cs). repeat split; simpl; auto.
      constructor; [eapply attempt_reject_complaint; eauto | exact Hcs].
Qed.

(** X12. A move that [human_player] returns is always a legal one,
    whatever the input was: it is the integer read from some line, lies
    in 0..63, has a truthy entry in [getValidMoves board 1], and is one of
    the moves the function printed as valid; the lines after that line
    are left for the next call. *)
Theorem human_player_move_is_legal (board : Board) (inputs : list string)
    (out : list Output) (move : Z) (rest : list string) :
  Driver.human_player g int board inputs = (out, Some (move, rest)) ->
  0 <= move < 64 /\
  (exists v, getValidMoves g board 1 !! Z.to_nat move = Some v /\
             truthy v = true) /\
  (exists before line, inputs = before ++ line :: rest /\ int line = Some move) /\
  exists tail,
    out = preamble g board ++ tail /\
    Z.to_nat move ∈ Driver.valid_indices 0 (getValidMoves g board 1).
Proof.
  unfold Driver.human_player, preamble.
  destruct (Driver.ask int (getValidMoves g board 1) inputs) as [out0 r] eqn:E.
  intros [= <- ->].
  destruct (ask_Some _ _ _ _ _ E) as (before & line & cs & Hin & Hacc & _ & _ & _).
  apply attempt_accept in Hacc as (Hi & Hm & Hv).
  split; [exact Hm | split; [exact Hv | split; [eauto|]]].
  exists out0. split.
  - rewrite <- app_assoc. reflexivity.
  - apply valid_indices_elem. rewrite Nat.sub_0_r. split; [lia | exact Hv].
Qed.

(** X13. When no line that is typed names a legal move, none typed at
    all included, [human_player] never returns: it answers every line
    with one complaint, writes its prompt once more and waits for a line
    that does not come. *)
Theorem human_player_waits_for_a_legal_move (board : Board)
    (inputs : list string) :
  Forall (fun l => ~ valid_entry int (getValidMoves g board 1) l) inputs ->
  exists complaints,
    List.length complaints = List.length inputs /\
    Forall is_complaint complaints /\
    Driver.human_player g int board inputs
      = (preamble g board ++ reprompts complaints
           ++ [Prompt "Enter your move (0-63): "], None).
Proof.
  intros Hbad. destruct (ask_None _ _ Hbad) as (cs & Hlen & Hcs & Hask).
  exists cs. split; [exact Hlen | split; [exact Hcs|]].
  unfold Driver.human_player, preamble. rewrite Hask, <- app_assoc. reflexivity.
Qed.

(** X14. Which complaint a rejected line gets. "Invalid move. Try again."
    answers an integer outside 0..63 and an integer in 0..63 whose entry
    in [valid] is falsy; "Please enter a valid integer between 0 and 63."
    answers a line that is no integer and an integer in 0..63 for which
    [valid] has no entry. *)
Theorem complaint_tells_the_fault (valid : list Z) (line : string) :
  (Driver.attempt int valid line = Driver.Reject "Invalid move. Try again." <->
   exists move,
     int line = Some move /\
     (move < 0 \/ 64 <= move \/ valid !! Z.to_nat move = Some 0)) /\
  (Driver.attempt int valid line
     = Driver.Reject "Please enter a valid integer between 0 and 63." <->
   int line = None \/
   exists move,
     int line = Some move /\ 0 <= move < 64 /\ valid !! Z.to_nat move = None).
Proof.
  unfold Driver.attempt.
  destruct (int line) as [m|].
  2:{ split; split; try discriminate; auto.
      intros (m & Hm & _). discriminate. }
  destruct ((0 <=? m) && (m <? 64)) eqn:Hr.
  - apply andb_true_iff in Hr as [H0 H64].
    apply Z.leb_le in H0. apply Z.ltb_lt in H64.
    destruct (valid !! Z.to_nat m) as [v|] eqn:Hv.
    + unfold truthy. destruct (Z.eqb_spec v 0) as [-> | Hnz]; simpl.
      * split; split; try discriminate; auto.
        -- intros _. exists m. auto.
        -- intros [? | (m' & [= <-] & _ & ?)]; congruence.
      * split; split; try discriminate.
        -- intros (m' & [= <-] & [? | [? | ?]]); [lia | lia | congruence].
        -- intros [? | (m' & [= <-] & _ & ?)]; congruence.
    + split; split; try discriminate; auto.
      * intros (m' & [= <-] & [? | [? | ?]]); [lia | lia | congruence].
      * intros _. right. exists m. auto.
  - apply andb_false_iff in Hr.
    assert (m < 0 \/ 64 <= m) as Hout.
    { destruct Hr as [Hr | Hr];
        [apply Z.leb_gt in Hr | apply Z.ltb_ge in Hr]; lia. }
    split; split; try discriminate; auto.
    + intros _. exists m. split; [reflexivity | tauto].
    + intros [? | (m' & [= <-] & ? & _)]; [discriminate | lia].
Qed.

End HumanPlayerMore.

Lemma human_player_move_is_legal_witness :
  exists out,
    Driver.human_player (Corner.g 8) Corner.int (getInitBoard (Corner.g 8))
      ["x"; "99"; "5"; "7"]%string = (out, Some (5, ["7"%string])) /\
    0 <= 5 < 64 /\
    (exists v, getValidMoves (Corner.g 8) (getInitBoard (Corner.g 8)) 1
                 !! Z.to_nat 5 = Some v /\ truthy v = true) /\
    (exists before line,
       ["x"; "99"; "5"; "7"]%string = before ++ line :: ["7"%string] /\
       Corner.int line = Some 5) /\
    exists tail,
      out = preamble (Corner.g 8) (getInitBoard (Corner.g 8)) ++ tail /\
      Z.to_nat 5 ∈ Driver.valid_indices 0
        (getValidMoves (Corner.g 8) (getInitBoard (Corner.g 8)) 1).
Proof.
  eexists. split; [vm_compute; reflexivity|].
  eapply (human_player_move_is_legal (Corner.g 8) Corner.int
            (getInitBoard (Corner.g 8)) ["x"; "99"; "5"; "7"]%string).
  vm_compute; reflexivity.
Defined.

Lemma human_player_waits_for_a_legal_move_witness :
  exists complaints,
    List.length complaints = 2%nat /\
    Forall is_complaint complaints /\
    Driver.human_player (Corner.g 8) Corner.int (getInitBoard (Corner.g 8))
      ["x"; "99"]%string
    = (preamble (Corner.g 8) (getInitBoard (Corner.g 8)) ++ reprompts complaints
         ++ [Prompt "Enter your move (0-63): "],
       None).
Proof.
  apply (human_player_waits_for_a_legal_move (Corner.g 8) Corner.int
           (getInitBoard (Corner.g 8)) ["x"; "99"]%string).
  repeat constructor; intros (m & v & Hi & Hm & _); vm_compute in Hi;
    [discriminate Hi | injection Hi as <-; lia].
Defined.

(** ** play_game: how a run ends and what it prints on the way *)

Section PlayGameMore.
Variable g : Game.
Variable engine : SearchEngine.
Variable int : string -> option Z.

(** What the loop has done when it is left through [break]. *)
Lemma loop_GameOver (fuel : nat) :
  forall board player inputs mcts its,
    Driver.loop g engine int fuel board player inputs mcts
      = (its, Driver.GameOver) ->
    exists it action board' player' out,
      last its = Some it /\
      Driver.it_move it = Some (Ok action) /\
      getNextState g (Driver.it_board it) (Driver.it_player it) action
        = Ok (board', player') /\
      getGameEnded g board' (- player') <> 0 /\
      Driver.it_out it
        = out ++ map Print (Display.display board')
              ++ [Print (Driver.announce (getGameEnded g board' (- player')))].
Proof.
  induction fuel as [|fuel IH]; intros board player inputs mcts its H;
    simpl in H; [discriminate H|].
  destruct (Driver.take_turn g engine int board player inputs mcts)
    as [[[out action] inputs'] mcts'].
  destruct action as [[action | e] |]; try discriminate H.
  destruct (getNextState g board player action) as [[board' player'] | e] eqn:Hnext;
    try discriminate H.
  destruct (Driver.game_over g board' player') as [final|] eqn:Hover.
  - injection H as <-.
    apply game_over_announces in Hover as [Hnz ->].
    eexists _, action, board', player', out. simpl. eauto 6.
  - destruct (Driver.loop g engine int fuel board' player' inputs' mcts')
      as [its0 st0] eqn:Hloop.
    injection H as <- ->.
    destruct (IH _ _ _ _ _ Hloop) as (it & a & b & p & o & Hlast & Hrest).
    exists it, a, b, p, o. split; [|exact Hrest].
    destruct its0 as [|it0 its0]; [discriminate Hlast | exact Hlast].
Qed.


(** X16. With a game object whose [getGameEnded] is 0 for every board and
    player, a result the loop reads as "not over", no run of [play_game]
    ever comes to the announcement. *)
Theorem zero_result_never_ends_the_game
    (fuel : nat) (inputs : list string) (mcts : Mcts engine) :
  (forall board player, getGameEnded g board player = 0) ->
  (Driver.play_game g engine int fuel inputs mcts).2 <> Driver.GameOver.
Proof.
  intros Hzero Hst.
  destruct (Driver.play_game g engine int fuel inputs mcts) as [its st] eqn:Hrun.
  simpl in Hst. subst st.
  destruct (loop_GameOver _ _ _ _ _ _ Hrun)
    as (_ & _ & b & p & _ & _ & _ & _ & Hnz & _).
  apply Hnz, Hzero.
Qed.

Lemma take_turn_out (board : Board) (player : Z) (inputs : list string)
    (mcts : Mcts engine) :
  let out := (Driver.take_turn g engine int board player inputs mcts).1.1.1 in
  (player = 1 -> exists tail, out = preamble g board ++ tail) /\
  (player <> 1 -> out = [Print "AI is thinking..."]).
Proof.
  unfold Driver.take_turn.
  destruct (Z.eqb_spec player 1) as [-> | Hne].
  - unfold Driver.human_player, preamble.
    destruct (Driver.ask int (getValidMoves g board 1) inputs)
      as [out0 [[move rest] |]]; simpl;
      (split; [intros _; exists out0; rewrite <- app_assoc; reflexivity
              | intros H; contradiction]).
  - destruct (Driver.ai_player engine mcts (board_mul board player)) as [a mcts'].
    simpl. split; [intros H; contradiction | reflexivity].
Qed.

Lemma loop_outputs (fuel : nat) :
  forall board player inputs mcts,
    Forall (fun it =>
              (Driver.it_player it = 1 ->
                 exists tail,
                   Driver.it_out it = preamble g (Driver.it_board it) ++ tail) /\
              (Driver.it_player it <> 1 ->
                 exists tail,
                   Driver.it_out it = Print "AI is thinking..." :: tail))
           (Driver.loop g engine int fuel board player inputs mcts).1.
Proof.
  induction fuel as [|fuel IH]; intros board player inputs mcts; simpl.
  { constructor. }
  pose proof (take_turn_out board player inputs mcts) as Hout.
  destruct (Driver.take_turn g engine int board player inputs mcts)
    as [[[out action] inputs'] mcts'].
  simpl in Hout. destruct Hout as [Hhuman Hai].
  assert (forall out',
            (player = 1 -> exists tail, out ++ out' = preamble g board ++ tail) /\
            (player <> 1 ->
               exists tail, out ++ out' = Print "AI is thinking..." :: tail))
    as Hhere.
  { intros out'. split.
    - intros Hp. destruct (Hhuman Hp) as [tail ->].
      exists (tail ++ out'). rewrite <- app_assoc. reflexivity.
    - intros Hp. rewrite (Hai Hp). exists out'. reflexivity. }
  destruct action as [[action | e] |]; simpl;
    try (repeat constructor; apply Hhere).
  destruct (getNextState g board player action) as [[board' player'] | e]; simpl;
    try (repeat constructor; apply Hhere).
  destruct (Driver.game_over g board' player'); simpl;
    try (repeat constructor; apply Hhere).
  specialize (IH board' player' inputs' mcts').
  destruct (Driver.loop g engine int fuel board' player' inputs' mcts') as [its st].
  simpl in *. constructor; [split; apply Hhere | exact IH].
Qed.

(** X17. Every iteration of [play_game] starts its output the same way:
    on the human's turn with the board and the list of valid moves, on
    any other turn with the line "AI is thinking...". *)
Theorem every_turn_opens_alike
    (fuel : nat) (inputs : list string) (mcts : Mcts engine)
    (i : nat) (it : Driver.Iteration) :
  (Driver.play_game g engine int fuel inputs mcts).1 !! i = Some it ->
  (Driver.it_player it = 1 ->
     exists tail, Driver.it_out it = preamble g (Driver.it_board it) ++ tail) /\
  (Driver.it_player it <> 1 ->
     exists tail, Driver.it_out it = Print "AI is thinking..." :: tail).
Proof.
  intros Hi.
  pose proof (loop_outputs fuel (getInitBoard g) 1 inputs mcts) as Hall.
  rewrite Forall_lookup in Hall. exact (Hall i it Hi).
Qed.

(** X18. When no line that is typed names a legal move on the starting
    board, [play_game] gets no further than its first iteration: it shows
    the board, answers every line with one complaint, writes the prompt
    once more and waits; no move is made, and the search object stays as
    it was. *)
Theorem play_game_waits_without_legal_input
    (fuel : nat) (inputs : list string) (mcts : Mcts engine) :
  Forall (fun l => ~ valid_entry int (getValidMoves g (getInitBoard g) 1) l)
         inputs ->
  exists complaints,
    List.length complaints = List.length inputs /\
    Driver.play_game g engine int (S fuel) inputs mcts
    = ([{| Driver.it_board := getInitBoard g;
           Driver.it_player := 1;
           Driver.it_inputs := inputs;
           Driver.it_mcts := mcts;
           Driver.it_move := None;
           Driver.it_out := preamble g (getInitBoard g)
                            ++ reprompts complaints
                            ++ [Prompt "Enter your move (0-63): "] |}],
       Driver.AwaitingInput).
Proof.
  intros Hbad. destruct (ask_None int _ _ Hbad) as (cs & Hlen & _ & Hask).
  exists cs. split; [exact Hlen|].
  unfold Driver.play_game. simpl.
  unfold Driver.take_turn, Driver.human_player. simpl. rewrite Hask. simpl.
  unfold preamble. rewrite app_nil_r, <- app_assoc. reflexivity.
Qed.

Lemma loop_fuel (fuel : nat) :
  forall board player inputs mcts its st extra,
    Driver.loop g engine int fuel board player inputs mcts = (its, st) ->
    st <> Driver.Running ->
    Driver.loop g engine int (fuel + extra) board player inputs mcts = (its, st).
Proof.
  induction fuel as [|fuel IH]; intros board player inputs mcts its st extra H Hst;
    simpl in H.
  { injection H as <- <-. contradiction. }
  simpl.
  destruct (Driver.take_turn g engine int board player inputs mcts)
    as [[[out action] inputs'] mcts'].
  destruct action as [[action | e] |]; try exact H.
  destruct (getNextState g board player action) as [[board' player'] | e];
    try exact H.
  destruct (Driver.game_over g board' player'); try exact H.
  destruct (Driver.loop g engine int fuel board' player' inputs' mcts')
    as [its0 st0] eqn:Hloop.
  injection H as <- <-.
  rewrite (IH _ _ _ _ _ _ extra Hloop Hst). reflexivity.
Qed.

(** X19. A run that has come to an end, by the game being over, by an
    exception or by waiting for input, is the same run under every larger
    bound on the number of iterations. *)
Theorem finished_run_needs_no_more_iterations
    (fuel extra : nat) (inputs : list string) (mcts : Mcts engine)
    (its : list Driver.Iteration) (st : Driver.Status) :
  Driver.play_game g engine int fuel inputs mcts = (its, st) ->
  st <> Driver.Running ->
  Driver.play_game g engine int (fuel + extra) inputs mcts = (its, st).
Proof. apply loop_fuel. Qed.

End PlayGameMore.


Lemma zero_result_never_ends_the_game_witness :
  (Driver.play_game endless (Corner.engine 8) Corner.int 2
     ["0"%string] (∅ : gmap Board Spec.Node)).2 <> Driver.GameOver.
Proof.
  apply (zero_result_never_ends_the_game endless (Corner.engine 8) Corner.int).
  intros board player. reflexivity.
Defined.

Lemma every_turn_opens_alike_witness :
  exists it,
    (Driver.play_game (Corner.g 2) (Corner.engine 2) Corner.int 5
       ["0"%string] (∅ : gmap Board Spec.Node)).1 !! 1%nat = Some it /\
    exists tail, Driver.it_out it = Print "AI is thinking..." :: tail.
Proof.
  assert (option_map Driver.it_player
            ((Driver.play_game (Corner.g 2) (Corner.engine 2) Corner.int 5
                ["0"%string] (∅ : gmap Board Spec.Node)).1 !! 1%nat)
          = Some (-1)) as Hp by (vm_compute; reflexivity).
  destruct ((Driver.play_game (Corner.g 2) (Corner.engine 2) Corner.int 5
               ["0"%string] (∅ : gmap Board Spec.Node)).1 !! 1%nat)
    as [it|] eqn:E; [|discriminate Hp].
  injection Hp as Hp. exists it. split; [reflexivity|].
  apply (proj2 (every_turn_opens_alike
            (Corner.g 2) (Corner.engine 2) Corner.int 5 ["0"%string]
            (∅ : gmap Board Spec.Node) 1%nat it E)).
  rewrite Hp. discriminate.
Defined.

Lemma play_game_waits_without_legal_input_witness :
  exists complaints,
    List.length complaints = 1%nat /\
    Driver.play_game (Corner.g 8) (Corner.engine 8) Corner.int 1
      ["x"%string] (∅ : gmap Board Spec.Node)
    = ([{| Driver.it_board := getInitBoard (Corner.g 8);
           Driver.it_player := 1;
           Driver.it_inputs := ["x"%string];
           Driver.it_mcts := ∅;
           Driver.it_move := None;
           Driver.it_out := preamble (Corner.g 8) (getInitBoard (Corner.g 8))
                            ++ reprompts complaints
                            ++ [Prompt "Enter your move (0-63): "] |}],
       Driver.AwaitingInput).
Proof.
  apply (play_game_waits_without_legal_input (Corner.g 8) (Corner.engine 8)
           Corner.int 0 ["x"%string] ∅).
  repeat constructor. intros (m & v & Hi & _). vm_compute in Hi. discriminate Hi.
Defined.

Lemma finished_run_needs_no_more_iterations_witness :
  exists its,
    Driver.play_game (Corner.g 2) (Corner.engine 2) Corner.int 5
      ["0"%string] (∅ : gmap Board Spec.Node) = (its, Driver.GameOver) /\
    Driver.play_game (Corner.g 2) (Corner.engine 2) Corner.int (5 + 3)
      ["0"%string] (∅ : gmap Board Spec.Node) = (its, Driver.GameOver).
Proof.
  assert ((Driver.play_game (Corner.g 2) (Corner.engine 2) Corner.int 5
             ["0"%string] (∅ : gmap Board Spec.Node)).2 = Driver.GameOver)
    as Hst by (vm_compute; reflexivity).
  destruct (Driver.play_game (Corner.g 2) (Corner.engine 2) Corner.int 5
              ["0"%string] (∅ : gmap Board Spec.Node)) as [its st] eqn:E.
  simpl in Hst. subst st.
  exists its. split; [reflexivity|].
  apply (finished_run_needs_no_more_iterations (Corner.g 2) (Corner.engine 2)
           Corner.int 5 3 ["0"%string] ∅ its Driver.GameOver E).
  discriminate.
Defined.

(** ** play_game: from one iteration to the next *)

Section PlayGameChain.
Variable g : Game.
Variable engine : SearchEngine.
Variable int : string -> option Z.

(** A move that [human_player] returned is a legal one. *)
Lemma returned_move_is_legal (board : Board) (inputs : list string)
    (action : Z) :
  returned (Driver.human_player g int board inputs).2 = Some (Ok action) ->
  0 <= action < 64 /\
  exists v, getValidMoves g board 1 !! Z.to_nat action = Some v /\
            truthy v = true.
Proof.
  unfold Driver.human_player.
  destruct (Driver.ask int (getValidMoves g board 1) inputs)
    as [out [[move rest] |]] eqn:E; simpl; [|discriminate].
  intros [= <-].
  destruct (ask_Some int _ _ _ _ _ E) as (_ & line & _ & _ & Hacc & _).
  apply attempt_accept in Hacc as (_ & Hm & Hv). auto.
Qed.

(** X20. Each iteration of [play_game] takes up where the one before
    left off. The first is the human's, on the starting board, with all
    the lines still to be read and the search object as it was given.
    Every later one begins with the board and the player that
    [getNextState] returned for the move of the one before, and only if
    [getGameEnded] gave 0 for that board. The move of an iteration on the
    human's turn is a legal one, whether or not another iteration
    follows. And a run that ends with the game over ends with a move
    that [getNextState] took to a board for which [getGameEnded] is not
    0. *)
Theorem run_follows_getNextState
    (fuel : nat) (inputs : list string) (mcts : Mcts engine) :
  (forall it,
     (Driver.play_game g engine int fuel inputs mcts).1 !! 0%nat = Some it ->
     Driver.it_board it = getInitBoard g /\ Driver.it_player it = 1 /\
     Driver.it_inputs it = inputs /\ Driver.it_mcts it = mcts) /\
  (forall i it it',
     (Driver.play_game g engine int fuel inputs mcts).1 !! i = Some it ->
     (Driver.play_game g engine int fuel inputs mcts).1 !! S i = Some it' ->
     exists action,
       Driver.it_move it = Some (Ok action) /\
       getNextState g (Driver.it_board it) (Driver.it_player it) action
         = Ok (Driver.it_board it', Driver.it_player it') /\
       getGameEnded g (Driver.it_board it') (- Driver.it_player it') = 0) /\
  (forall i it action,
     (Driver.play_game g engine int fuel inputs mcts).1 !! i = Some it ->
     Driver.it_player it = 1 ->
     Driver.it_move it = Some (Ok action) ->
     0 <= action < 64 /\
     exists v,
       getValidMoves g (Driver.it_board it) 1 !! Z.to_nat action = Some v /\
       truthy v = true) /\
  (forall its,
     Driver.play_game g engine int fuel inputs mcts = (its, Driver.GameOver) ->
     exists it action board' player',
       last its = Some it /\
       Driver.it_move it = Some (Ok action) /\
       getNextState g (Driver.it_board it) (Driver.it_player it) action
         = Ok (board', player') /\
       getGameEnded g board' (- player') <> 0).
Proof.
  unfold Driver.play_game. split; [|split; [|split]].
  - intros it Hit.
    destruct (loop_head _ _ _ _ _ _ _ _ _ Hit) as (Hb & Hp & Hi & Hm & _). auto.
  - intros i it it' Hit Hit'.
    destruct (loop_next _ _ _ _ _ _ _ _ _ _ _ Hit Hit')
      as (action & Hact & Hnext & Hzero & _).
    eauto.
  - intros i it action Hit Hp Hact.
    pose proof (loop_moves _ _ _ _ _ _ _ _ _ _ Hit) as Hmove.
    unfold turn_of in Hmove.
    rewrite Hp, take_turn_human in Hmove. simpl in Hmove.
    rewrite Hact in Hmove. symmetry in Hmove.
    exact (returned_move_is_legal _ _ _ Hmove).
  - intros its Hrun.
    destruct (loop_GameOver _ _ _ _ _ _ _ _ _ Hrun)
      as (it & action & board' & player' & _ & Hlast & Hact & Hnext & Hnz & _).
    exists it, action, board', player'. auto.
Qed.

(** A run stops at the iteration in which [action] is an exception
    raised, or [getNextState] raises for the move. *)
Lemma loop_raise (fuel : nat) :
  forall board player inputs mcts i it e,
    (Driver.loop g engine int fuel board player inputs mcts).1 !! i = Some it ->
    (Driver.it_move it = Some (Raise e) \/
     exists action,
       Driver.it_move it = Some (Ok action) /\
       getNextState g (Driver.it_board it) (Driver.it_player it) action
         = Raise e) ->
    (Driver.loop g engine int fuel board player inputs mcts).2
      = Driver.Uncaught e /\
    List.length (Driver.loop g engine int fuel board player inputs mcts).1 = S i.
Proof.
  induction fuel as [|fuel IH]; intros board player inputs mcts i it e;
    simpl; [discriminate|].
  destruct (Driver.take_turn g engine int board player inputs mcts)
    as [[[out action] inputs'] mcts'].
  destruct action as [[action | e0] |]; simpl.
  - destruct (getNextState g board player action)
      as [[board' player'] | e1] eqn:Hnext; simpl.
    + destruct (Driver.game_over g board' player'); simpl.
      * destruct i as [|i]; simpl; [|rewrite lookup_nil; discriminate].
        intros [= <-]. simpl.
        intros [H | (a & [= <-] & H)]; [discriminate H | congruence].
      * specialize (IH board' player' inputs' mcts').
        destruct (Driver.loop g engine int fuel board' player' inputs' mcts')
          as [its st].
        simpl in *. destruct i as [|i]; simpl.
        -- intros [= <-]. simpl.
           intros [H | (a & [= <-] & H)]; [discriminate H | congruence].
        -- intros Hit Hwhy. destruct (IH i it e Hit Hwhy) as [-> ->]. auto.
    + destruct i as [|i]; simpl; [|rewrite lookup_nil; discriminate].
      intros [= <-]. simpl.
      intros [H | (a & [= <-] & H)]; [discriminate H|].
      rewrite Hnext in H. injection H as <-. auto.
  - destruct i as [|i]; simpl; [|rewrite lookup_nil; discriminate].
    intros [= <-]. simpl.
    intros [[= <-] | (a & H & _)]; [auto | discriminate H].
  - destruct i as [|i]; simpl; [|rewrite lookup_nil; discriminate].
    intros [= <-]. simpl.
    intros [H | (a & H & _)]; discriminate H.
Qed.

(** X21. [play_game] has no handler of its own. When [ai_player] raises
    on the board it is given, or [getNextState] raises for the move of
    an iteration, the run ends in that iteration with the exception
    uncaught: no later iteration is run. *)
Theorem an_exception_ends_the_run
    (fuel : nat) (inputs : list string) (mcts : Mcts engine)
    (i : nat) (it : Driver.Iteration) (e : PyExn) :
  (Driver.play_game g engine int fuel inputs mcts).1 !! i = Some it ->
  (Driver.it_player it <> 1 /\
   (Driver.ai_player engine (Driver.it_mcts it)
      (board_mul (Driver.it_board it) (Driver.it_player it))).1 = Raise e) \/
  (exists action,
     Driver.it_move it = Some (Ok action) /\
     getNextState g (Driver.it_board it) (Driver.it_player it) action
       = Raise e) ->
  (Driver.play_game g engine int fuel inputs mcts).2 = Driver.Uncaught e /\
  List.length (Driver.play_game g engine int fuel inputs mcts).1 = S i /\
  last (Driver.play_game g engine int fuel inputs mcts).1 = Some it.
Proof.
  unfold Driver.play_game. intros Hit Hwhy.
  assert (Driver.it_move it = Some (Raise e) \/
          exists action,
            Driver.it_move it = Some (Ok action) /\
            getNextState g (Driver.it_board it) (Driver.it_player it) action
              = Raise e) as Hmove.
  { destruct Hwhy as [[Hp Hai] | Hnext]; [left | right; exact Hnext].
    rewrite (loop_moves _ _ _ _ _ _ _ _ _ _ Hit). unfold turn_of.
    rewrite take_turn_ai by exact Hp. simpl. rewrite Hai. reflexivity. }
  destruct (loop_raise _ _ _ _ _ _ _ _ Hit Hmove) as [Hst Hlen].
  split; [exact Hst | split; [exact Hlen|]].
  rewrite last_lookup, Hlen. exact Hit.
Qed.

End PlayGameChain.

Lemma run_follows_getNextState_witness :
  exists it it' action,
    (Driver.play_game (Corner.g 2) (Corner.engine 2) Corner.int 5
       ["0"%string] (∅ : gmap Board Spec.Node)).1 !! 0%nat = Some it /\
    (Driver.play_game (Corner.g 2) (Corner.engine 2) Corner.int 5
       ["0"%string] (∅ : gmap Board Spec.Node)).1 !! 1%nat = Some it' /\
    Driver.it_move it = Some (Ok action) /\
    getNextState (Corner.g 2) (Driver.it_board it) (Driver.it_player it) action
      = Ok (Driver.it_board it', Driver.it_player it') /\
    getGameEnded (Corner.g 2) (Driver.it_board it') (- Driver.it_player it') = 0.
Proof.
  assert (forall i, (i < 2)%nat ->
            is_Some ((Driver.play_game (Corner.g 2) (Corner.engine 2) Corner.int 5
                        ["0"%string] (∅ : gmap Board Spec.Node)).1 !! i)) as Hlen.
  { intros i Hi. apply lookup_lt_is_Some.
    assert (List.length (Driver.play_game (Corner.g 2) (Corner.engine 2)
                           Corner.int 5 ["0"%string]
                           (∅ : gmap Board Spec.Node)).1 = 2%nat) as ->
      by (vm_compute; reflexivity).
    exact Hi. }
  destruct (Hlen 0%nat ltac:(lia)) as [it E0].
  destruct (Hlen 1%nat ltac:(lia)) as [it' E1].
  destruct (proj1 (proj2 (run_follows_getNextState (Corner.g 2) (Corner.engine 2)
                            Corner.int 5 ["0"%string] ∅)) 0%nat it it' E0 E1)
    as (action & Hact & Hnext & Hzero).
  exists it, it', action. auto.
Defined.

Lemma an_exception_ends_the_run_witness :
  exists it,
    (Driver.play_game (Corner.g 2) (fixed_engine []) Corner.int 3
       ["0"%string] tt).1 !! 1%nat = Some it /\
    (Driver.play_game (Corner.g 2) (fixed_engine []) Corner.int 3
       ["0"%string] tt).2 = Driver.Uncaught ValueError /\
    List.length (Driver.play_game (Corner.g 2) (fixed_engine []) Corner.int 3
                   ["0"%string] tt).1 = 2%nat /\
    last (Driver.play_game (Corner.g 2) (fixed_engine []) Corner.int 3
            ["0"%string] tt).1 = Some it.
Proof.
  assert (option_map Driver.it_player
            ((Driver.play_game (Corner.g 2) (fixed_engine []) Corner.int 3
                ["0"%string] tt).1 !! 1%nat) = Some (-1)) as Hp
    by (vm_compute; reflexivity).
  destruct ((Driver.play_game (Corner.g 2) (fixed_engine []) Corner.int 3
               ["0"%string] tt).1 !! 1%nat) as [it|] eqn:E; [|discriminate Hp].
  injection Hp as Hp. exists it. split; [reflexivity|].
  apply (an_exception_ends_the_run (Corner.g 2) (fixed_engine []) Corner.int 3
           ["0"%string] tt 1%nat it ValueError E).
  left. split; [rewrite Hp; discriminate | reflexivity].
Defined.
